(** * Mouse-button mapping engine (backend/routes/mouse_listener.py)

    A shallow embedding of the event-to-shortcut engine: the shortcut
    parser and its cache, the mapping tables and their loader, the key
    history, the sequence matcher, the deferred single key with its
    timer, the two shortcut executors and the listener lifecycle.

    Modelling conventions.
    - Python [str] is [string]; the string primitives of module [Py]
      ([lower], [split], [strip], [int]) are exact on ASCII text.
    - [dict] is stdpp's [gmap]; lists are lists.
    - [time.time()] readings are rationals, handed to the handler as an
      argument; [SEQUENCE_TIMEOUT = 0.5] and [SINGLE_KEY_DELAY = 0.3].
    - The module globals form the record [Engine]; every function takes
      the engine and returns the updated one.
    - [keyboard_controller] is a device [dev] that accepts or refuses
      each call; every call issued is appended to [kb_calls].
    - [app_logger] is the list [app_log] of structured entries.
    - [threading.Timer] objects live in the table [timers], indexed by
      their creation order. *)

From Stdlib Require Import Ascii String QArith Lqa DecimalString.
From Stdlib Require DecimalPos DecimalZ.
From stdpp Require Import gmap strings list fin_maps sorting.

(** ** Python string primitives *)

Module Py.

Definition is_upper (c : ascii) : bool :=
  let n := nat_of_ascii c in (65 <=? n)%nat && (n <=? 90)%nat.

Definition lower_char (c : ascii) : ascii :=
  if is_upper c then ascii_of_nat (nat_of_ascii c + 32) else c.

(** [str.lower()] *)
Fixpoint lower (s : string) : string :=
  match s with
  | EmptyString => EmptyString
  | String c r => String (lower_char c) (lower r)
  end.

(** [str.isspace()] on one character: TAB, LF, VT, FF, CR, FS, GS, RS,
    US and the space. *)
Definition isspace (c : ascii) : bool :=
  let n := nat_of_ascii c in
  ((9 <=? n)%nat && (n <=? 13)%nat) || ((28 <=? n)%nat && (n <=? 32)%nat).

Fixpoint lstrip (s : string) : string :=
  match s with
  | EmptyString => EmptyString
  | String c r => if isspace c then lstrip r else s
  end.

Definition rstrip (s : string) : string := String.rev (lstrip (String.rev s)).

(** [str.strip()] *)
Definition strip (s : string) : string := rstrip (lstrip s).

(** [str.split(sep)] for a one-character separator: never returns the
    empty list, and two adjacent separators give an empty part. *)
Fixpoint split (sep : ascii) (s : string) : list string :=
  match s with
  | EmptyString => [EmptyString]
  | String c r =>
      if bool_decide (c = sep) then EmptyString :: split sep r
      else match split sep r with
           | h :: t => String c h :: t
           | [] => [String c EmptyString]
           end
  end.

(** [s.startswith(c)] for a one-character prefix. *)
Definition startswith (c : ascii) (s : string) : bool :=
  match s with
  | String d _ => bool_decide (d = c)
  | EmptyString => false
  end.

(** [s[1:]] *)
Definition tail (s : string) : string :=
  match s with
  | String _ r => r
  | EmptyString => EmptyString
  end.

Definition digit_value (c : ascii) : option Z :=
  let n := nat_of_ascii c in
  if (48 <=? n)%nat && (n <=? 57)%nat then Some (Z.of_nat (n - 48)) else None.

(** Where the digit scanner of [int()] stands: nothing read yet, just
    after a digit, just after an underscore. *)
Inductive scan := AtStart | AfterDigit | AfterUnderscore.

Fixpoint int_digits (s : string) (prev : scan) (acc : Z) : option Z :=
  match s with
  | EmptyString => match prev with AfterDigit => Some acc | _ => None end
  | String c r =>
      match digit_value c with
      | Some d => int_digits r AfterDigit (acc * 10 + d)
      | None =>
          if bool_decide (c = "_"%char) then
            match prev with
            | AfterDigit => int_digits r AfterUnderscore acc
            | _ => None
            end
          else None
      end
  end.

(** [int(s)] in base ten: surrounding white space is dropped, one sign
    is allowed, then digits, with single underscores between digits.
    [None] stands for [ValueError].  (The interpreter's limit on the
    number of digits is not modelled.) *)
Definition int (s : string) : option Z :=
  match strip s with
  | String "+" r => int_digits r AtStart 0
  | String "-" r => Z.opp <$> int_digits r AtStart 0
  | r => int_digits r AtStart 0
  end.

(** [f"{n}"] for an integer. *)
Definition str_of_int (n : Z) : string := NilZero.string_of_int (Z.to_int n).

End Py.

(** ** Key tokens *)

(** The members of [pynput.keyboard.Key] that the module uses.  The
    library declares the function keys [f1] to [f20]. *)
Inductive Key :=
| Key_ctrl | Key_cmd | Key_alt | Key_shift
| Key_enter | Key_tab | Key_space | Key_backspace | Key_delete | Key_esc
| Key_up | Key_down | Key_left | Key_right | Key_home | Key_end
| Key_page_up | Key_page_down
| Key_f (n : nat).

(** An element of a parsed shortcut: a [Key] member or a one-character
    string. *)
Inductive KeyToken :=
| Named (k : Key)
| Char (c : ascii).

(** [getattr(Key, f'f{f_num}', None)] *)
Definition Key_getattr_f (f_num : Z) : option Key :=
  if bool_decide (1 ≤ f_num ≤ 20)%Z then Some (Key_f (Z.to_nat f_num)) else None.

Definition _modifier_map : gmap string Key :=
  list_to_map
    [("ctrl", Key_ctrl); ("cmd", Key_cmd); ("alt", Key_alt);
     ("shift", Key_shift); ("win", Key_cmd)].

Definition _special_keys : gmap string Key :=
  list_to_map
    [("enter", Key_enter); ("tab", Key_tab); ("space", Key_space);
     ("backspace", Key_backspace); ("delete", Key_delete);
     ("escape", Key_esc); ("esc", Key_esc);
     ("up", Key_up); ("down", Key_down); ("left", Key_left); ("right", Key_right);
     ("home", Key_home); ("end", Key_end);
     ("pageup", Key_page_up); ("pagedown", Key_page_down);
     ("f1", Key_f 1); ("f2", Key_f 2); ("f3", Key_f 3); ("f4", Key_f 4);
     ("f5", Key_f 5); ("f6", Key_f 6); ("f7", Key_f 7); ("f8", Key_f 8);
     ("f9", Key_f 9); ("f10", Key_f 10); ("f11", Key_f 11); ("f12", Key_f 12)].

(** ** Shortcut parser *)

(** The three [ValueError]s of [_parse_shortcut], by message. *)
Inductive ParseError :=
| InvalidFunctionKey (part : string)
| InvalidKey (part : string)
| EmptyShortcut.

(** The body of the [for part in parts] loop for one stripped, non-empty
    part: the token appended to [keys], or the error raised. *)
Definition parse_part (part : string) : ParseError + KeyToken :=
  match _modifier_map !! part with
  | Some k => inr (Named k)
  | None =>
      match _special_keys !! part with
      | Some k => inr (Named k)
      | None =>
          if Py.startswith "f" part && (1 <? String.length part)%nat then
            match Py.int (Py.tail part) with
            | Some f_num =>
                if bool_decide (1 ≤ f_num ≤ 20)%Z then
                  match Key_getattr_f f_num with
                  | Some f_key => inr (Named f_key)
                  | None => inl (InvalidFunctionKey part)
                  end
                else inl (InvalidFunctionKey part)
            | None => inl (InvalidFunctionKey part)
            end
          else
            match part with
            | String c EmptyString => inr (Char c)
            | _ => inl (InvalidKey part)
            end
      end
  end.

Fixpoint parse_loop (parts : list string) (keys : list KeyToken)
  : ParseError + list KeyToken :=
  match parts with
  | [] => inr keys
  | part :: rest =>
      let part := Py.strip part in
      if bool_decide (part = EmptyString) then parse_loop rest keys
      else match parse_part part with
           | inl e => inl e
           | inr k => parse_loop rest (keys ++ [k])
           end
  end.

(** The parser on a cache miss, before the result is stored. *)
Definition parse_fresh (shortcut : string) : ParseError + list KeyToken :=
  match parse_loop (Py.split "+" (Py.lower shortcut)) [] with
  | inl e => inl e
  | inr [] => inl EmptyShortcut
  | inr keys => inr keys
  end.

(** [_parse_shortcut]: the cache is consulted first and extended on a
    successful parse. *)
Definition _parse_shortcut (shortcut : string) (cache : gmap string (list KeyToken))
  : (ParseError + list KeyToken) * gmap string (list KeyToken) :=
  match cache !! shortcut with
  | Some keys => (inr keys, cache)
  | None =>
      match parse_fresh shortcut with
      | inl e => (inl e, cache)
      | inr keys => (inr keys, <[shortcut := keys]> cache)
      end
  end.

(** ** Engine state *)

(** A raw mapping record as the configuration store hands it over; a
    missing key reads as [None] ([btn.get(...)]). *)
Record Button := {
  btn_action : option string;
  btn_sequence : option (list string);
  btn_keyType : option string;
  btn_name : option string
}.

(** What [load_buttons()] did: raise, or return the records. *)
Inductive Fetch :=
| FetchRaised
| FetchReturned (buttons : list Button).

Record SequenceMapping := {
  sequence : list string;
  action : string;
  name : string
}.

(** An entry of the key history: [(key_type, timestamp)]. *)
Abbreviation HistoryEntry := (string * Q)%type.

Inductive KbCall :=
| Press (k : KeyToken)
| Release (k : KeyToken).

(** Why [execute_shortcut] raised. *)
Inductive ExecError :=
| ParseFailed (e : ParseError)
| DeviceFailed (c : KbCall).

(** A [threading.Timer] that runs [execute_pending_single_key]. *)
Inductive TimerState :=
| Waiting (deadline : Q)
| Cancelled
| Fired.

Inductive LogEntry :=
| InfoLoadedButtons (n : nat)
| InfoLoadedSequences (seqs : list (list string))
| ErrorLoadFailed
| InfoExecuting (shortcut : string)
| InfoExecuted (shortcut : string)
| ErrorExecFailed (err : ExecError)
| InfoSequenceMapping (seq : list string) (act : string)
| ErrorSequenceFailed (err : ExecError)
| InfoSingleDetected (key_type act : string)
| InfoSingleMapping (key_type act : string)
| ErrorSingleFailed (err : ExecError).

(** The module's globals and the world around them.
    [listener_threads] counts the listener threads started so far, each
    with its own mouse subscription (the module keeps the latest one in
    [listener_thread]); [pending_timer] is the handle of a timer in
    [timers]; [kb_calls] are the calls issued to [keyboard_controller],
    oldest first. *)
Record Engine := {
  is_listening : bool;
  listener_threads : nat;
  button_mappings : gmap string string;
  sequence_mappings : list SequenceMapping;
  key_history : list HistoryEntry;
  pending_single_key : option (string * string * Q);
  pending_timer : option nat;
  _shortcut_cache : gmap string (list KeyToken);
  timers : list TimerState;
  kb_calls : list KbCall;
  app_log : list LogEntry
}.

Definition SEQUENCE_TIMEOUT : Q := 1 # 2.
Definition SINGLE_KEY_DELAY : Q := 3 # 10.

(** The module as imported: nothing loaded, nothing running. *)
Definition initial : Engine := {|
  is_listening := false;
  listener_threads := 0;
  button_mappings := ∅;
  sequence_mappings := [];
  key_history := [];
  pending_single_key := None;
  pending_timer := None;
  _shortcut_cache := ∅;
  timers := [];
  kb_calls := [];
  app_log := []
|}.

Definition set_is_listening (b : bool) (e : Engine) : Engine :=
  {| is_listening := b; listener_threads := listener_threads e;
     button_mappings := button_mappings e; sequence_mappings := sequence_mappings e;
     key_history := key_history e; pending_single_key := pending_single_key e;
     pending_timer := pending_timer e; _shortcut_cache := _shortcut_cache e;
     timers := timers e; kb_calls := kb_calls e; app_log := app_log e |}.

Definition set_listener_threads (n : nat) (e : Engine) : Engine :=
  {| is_listening := is_listening e; listener_threads := n;
     button_mappings := button_mappings e; sequence_mappings := sequence_mappings e;
     key_history := key_history e; pending_single_key := pending_single_key e;
     pending_timer := pending_timer e; _shortcut_cache := _shortcut_cache e;
     timers := timers e; kb_calls := kb_calls e; app_log := app_log e |}.

Definition set_mappings (bm : gmap string string) (sm : list SequenceMapping)
  (e : Engine) : Engine :=
  {| is_listening := is_listening e; listener_threads := listener_threads e;
     button_mappings := bm; sequence_mappings := sm;
     key_history := key_history e; pending_single_key := pending_single_key e;
     pending_timer := pending_timer e; _shortcut_cache := _shortcut_cache e;
     timers := timers e; kb_calls := kb_calls e; app_log := app_log e |}.

Definition set_key_history (h : list HistoryEntry) (e : Engine) : Engine :=
  {| is_listening := is_listening e; listener_threads := listener_threads e;
     button_mappings := button_mappings e; sequence_mappings := sequence_mappings e;
     key_history := h; pending_single_key := pending_single_key e;
     pending_timer := pending_timer e; _shortcut_cache := _shortcut_cache e;
     timers := timers e; kb_calls := kb_calls e; app_log := app_log e |}.

Definition set_pending_single_key (p : option (string * string * Q)) (e : Engine) : Engine :=
  {| is_listening := is_listening e; listener_threads := listener_threads e;
     button_mappings := button_mappings e; sequence_mappings := sequence_mappings e;
     key_history := key_history e; pending_single_key := p;
     pending_timer := pending_timer e; _shortcut_cache := _shortcut_cache e;
     timers := timers e; kb_calls := kb_calls e; app_log := app_log e |}.

Definition set_pending_timer (t : option nat) (e : Engine) : Engine :=
  {| is_listening := is_listening e; listener_threads := listener_threads e;
     button_mappings := button_mappings e; sequence_mappings := sequence_mappings e;
     key_history := key_history e; pending_single_key := pending_single_key e;
     pending_timer := t; _shortcut_cache := _shortcut_cache e;
     timers := timers e; kb_calls := kb_calls e; app_log := app_log e |}.

Definition set_shortcut_cache (c : gmap string (list KeyToken)) (e : Engine) : Engine :=
  {| is_listening := is_listening e; listener_threads := listener_threads e;
     button_mappings := button_mappings e; sequence_mappings := sequence_mappings e;
     key_history := key_history e; pending_single_key := pending_single_key e;
     pending_timer := pending_timer e; _shortcut_cache := c;
     timers := timers e; kb_calls := kb_calls e; app_log := app_log e |}.

Definition set_timers (ts : list TimerState) (e : Engine) : Engine :=
  {| is_listening := is_listening e; listener_threads := listener_threads e;
     button_mappings := button_mappings e; sequence_mappings := sequence_mappings e;
     key_history := key_history e; pending_single_key := pending_single_key e;
     pending_timer := pending_timer e; _shortcut_cache := _shortcut_cache e;
     timers := ts; kb_calls := kb_calls e; app_log := app_log e |}.

Definition set_kb_calls (cs : list KbCall) (e : Engine) : Engine :=
  {| is_listening := is_listening e; listener_threads := listener_threads e;
     button_mappings := button_mappings e; sequence_mappings := sequence_mappings e;
     key_history := key_history e; pending_single_key := pending_single_key e;
     pending_timer := pending_timer e; _shortcut_cache := _shortcut_cache e;
     timers := timers e; kb_calls := cs; app_log := app_log e |}.

(** [app_logger.info(...)] / [app_logger.error(...)] *)
Definition log (entry : LogEntry) (e : Engine) : Engine :=
  {| is_listening := is_listening e; listener_threads := listener_threads e;
     button_mappings := button_mappings e; sequence_mappings := sequence_mappings e;
     key_history := key_history e; pending_single_key := pending_single_key e;
     pending_timer := pending_timer e; _shortcut_cache := _shortcut_cache e;
     timers := timers e; kb_calls := kb_calls e; app_log := app_log e ++ [entry] |}.

(** ** Mapping table *)

(** One round of the [for btn in buttons] loop. *)
Definition load_button (tables : gmap string string * list SequenceMapping) (btn : Button)
  : gmap string string * list SequenceMapping :=
  let '(bm, sm) := tables in
  match btn_action btn with
  | None => tables
  | Some act =>
      if bool_decide (act = EmptyString) then tables
      else
        match btn_sequence btn with
        | Some (k :: ks) =>
            (bm, sm ++ [{| sequence := k :: ks; action := act;
                           name := default EmptyString (btn_name btn) |}])
        | _ =>
            match btn_keyType btn with
            | Some key_type =>
                if bool_decide (key_type = EmptyString) then tables
                else (<[key_type := act]> bm, sm)
            | None => tables
            end
        end
  end.

(** [list.sort(key=lambda x: len(x['sequence']), reverse=True)]: a stable
    sort, so mappings of equal length keep their order. *)
Fixpoint insert_by_length (m : SequenceMapping) (l : list SequenceMapping)
  : list SequenceMapping :=
  match l with
  | [] => [m]
  | x :: r =>
      if (length (sequence x) <=? length (sequence m))%nat then m :: l
      else x :: insert_by_length m r
  end.

Definition sort_by_length_desc (l : list SequenceMapping) : list SequenceMapping :=
  foldr insert_by_length [] l.

Definition load_mappings (fetched : Fetch) (e : Engine) : Engine :=
  match fetched with
  | FetchReturned buttons =>
      let '(bm, sm) := foldl load_button (∅, []) buttons in
      let sm := sort_by_length_desc sm in
      log (InfoLoadedSequences (sequence <$> sm))
        (log (InfoLoadedButtons (size bm)) (set_mappings bm sm e))
  | FetchRaised =>
      set_mappings ∅ [] (log ErrorLoadFailed e)
  end.

(** ** Key history and sequence matcher *)

Definition Qltb (x y : Q) : bool := negb (Qle_bool y x).

(** [l[-n:]] for [n > 0]. *)
Definition last_n {A} (n : nat) (l : list A) : list A := drop (length l - n) l.

(** [while key_history and key_history[0][1] < current_time - SEQUENCE_TIMEOUT:
       key_history.pop(0)] *)
Fixpoint prune (current_time : Q) (h : list HistoryEntry) : list HistoryEntry :=
  match h with
  | [] => []
  | (key_type, t) :: rest =>
      if Qltb t (current_time - SEQUENCE_TIMEOUT) then prune current_time rest else h
  end.

(** The append and the pruning loop that open [handle_mouse_button]. *)
Definition record_event (key_type : string) (current_time : Q) (h : list HistoryEntry)
  : list HistoryEntry :=
  prune current_time (h ++ [(key_type, current_time)]).

(** The inner [for i, seq_key in enumerate(sequence)] loop; [base] is
    [len(recent_history) - len(sequence)].  An index out of range would
    raise; the guard on the lengths excludes it. *)
Fixpoint match_from (recent_history : list HistoryEntry) (base i : nat)
  (seq : list string) : bool :=
  match seq with
  | [] => true
  | seq_key :: rest =>
      match recent_history !! (base + i)%nat with
      | Some (hist_key, _) =>
          if bool_decide (hist_key = seq_key)
          then match_from recent_history base (S i) rest
          else false
      | None => false
      end
  end.

(** The outer [for mapping in sequence_mappings] loop. *)
Fixpoint first_match (recent_history : list HistoryEntry) (ms : list SequenceMapping)
  : option SequenceMapping * list HistoryEntry :=
  match ms with
  | [] => (None, recent_history)
  | mapping :: rest =>
      let seq := sequence mapping in
      if (length recent_history <? length seq)%nat then first_match recent_history rest
      else if match_from recent_history (length recent_history - length seq) 0 seq
      then (Some mapping, take (length recent_history - length seq) recent_history)
      else first_match recent_history rest
  end.

Definition check_sequence_match (sequence_mappings : list SequenceMapping)
  (history : list HistoryEntry) : option SequenceMapping * list HistoryEntry :=
  first_match (last_n 20 history) sequence_mappings.

(** [f"button_{button_number}"] *)
Definition key_type_of (button_number : Z) : string :=
  ("button_" +:+ Py.str_of_int button_number)%string.

(** ** Shortcut executors *)

Section Device.

(** The keyboard controller: [dev c = false] when the call [c] raises. *)
Variable dev : KbCall → bool.

(** [for key in keys: keyboard_controller.<call>(key)]: the calls
    issued, and the call that raised, if one did. *)
Fixpoint issue (call : KeyToken → KbCall) (keys : list KeyToken) (calls : list KbCall)
  : option KbCall * list KbCall :=
  match keys with
  | [] => (None, calls)
  | key :: rest =>
      if dev (call key) then issue call rest (calls ++ [call key])
      else (Some (call key), calls ++ [call key])
  end.

(** [execute_shortcut_fast]: no logging, any exception becomes [False]. *)
Definition execute_shortcut_fast (shortcut : string) (e : Engine) : bool * Engine :=
  match _parse_shortcut shortcut (_shortcut_cache e) with
  | (inl err, _) => (false, e)
  | (inr keys, cache) =>
      let e := set_shortcut_cache cache e in
      match issue Press keys (kb_calls e) with
      | (Some c, calls) => (false, set_kb_calls calls e)
      | (None, calls) =>
          match issue Release (reverse keys) calls with
          | (Some c, calls) => (false, set_kb_calls calls e)
          | (None, calls) => (true, set_kb_calls calls e)
          end
      end
  end.

(** [execute_shortcut]: logs, and re-raises any exception as a
    [ValueError] ([inl], with the cause). *)
Definition execute_shortcut (shortcut : string) (e : Engine)
  : (ExecError + bool) * Engine :=
  match _parse_shortcut shortcut (_shortcut_cache e) with
  | (inl err, _) =>
      (inl (ParseFailed err), log (ErrorExecFailed (ParseFailed err)) e)
  | (inr keys, cache) =>
      let e := set_shortcut_cache cache e in
      let e := log (InfoExecuting shortcut) e in
      match issue Press keys (kb_calls e) with
      | (Some c, calls) =>
          (inl (DeviceFailed c), log (ErrorExecFailed (DeviceFailed c)) (set_kb_calls calls e))
      | (None, calls) =>
          match issue Release (reverse keys) calls with
          | (Some c, calls) =>
              (inl (DeviceFailed c),
               log (ErrorExecFailed (DeviceFailed c)) (set_kb_calls calls e))
          | (None, calls) =>
              (inr true, log (InfoExecuted shortcut) (set_kb_calls calls e))
          end
      end
  end.

(** ** Deferred single key *)

(** [execute_pending_single_key], the timer's callback; it reads the
    module-level [pending_single_key]. *)
Definition execute_pending_single_key (e : Engine) : Engine :=
  match pending_single_key e with
  | Some (key_type, act, timestamp) =>
      let e := set_pending_timer None (set_pending_single_key None e) in
      match execute_shortcut act e with
      | (inr _, e) => log (InfoSingleMapping key_type act) e
      | (inl err, e) => log (ErrorSingleFailed err) e
      end
  | None => e
  end.

(** [Timer.cancel()]: a timer that has not fired yet never will. *)
Definition cancel_timer (t : TimerState) : TimerState :=
  match t with
  | Waiting _ => Cancelled
  | other => other
  end.

(** [cancel_pending_single_key]; it reads and writes the module-level
    [pending_timer] and [pending_single_key]. *)
Definition cancel_pending_single_key (e : Engine) : Engine :=
  let e :=
    match pending_timer e with
    | Some id => set_pending_timer None (set_timers (alter cancel_timer id (timers e)) e)
    | None => e
    end in
  set_pending_single_key None e.

(** [threading.Timer(SINGLE_KEY_DELAY, execute_pending_single_key)]
    followed by [start()]: the new timer's handle and the engine with
    the timer running. *)
Definition start_timer (current_time : Q) (e : Engine) : nat * Engine :=
  (length (timers e),
   set_timers (timers e ++ [Waiting (current_time + SINGLE_KEY_DELAY)]) e).

(** The timer thread: once the interval has passed, a timer that was
    not cancelled runs its callback, once. *)
Definition timer_elapse (id : nat) (now : Q) (e : Engine) : Engine :=
  match timers e !! id with
  | Some (Waiting deadline) =>
      if Qle_bool deadline now
      then execute_pending_single_key (set_timers (<[id := Fired]> (timers e)) e)
      else e
  | _ => e
  end.

(** ** Button handler *)

(** [handle_mouse_button].  The function has no [global] statement, so
    the names it assigns, [pending_single_key] and [pending_timer], are
    local to the call: the bindings [_pending_single_key] and
    [_pending_timer] below go out of scope on return, and the engine
    fields of the same names change only through
    [cancel_pending_single_key].  [key_history] is only mutated in
    place and [button_mappings] only read, so both are the module's. *)
Definition handle_mouse_button (button_number : Z) (current_time : Q) (e : Engine)
  : bool * Engine :=
  let key_type := key_type_of button_number in
  let e := set_key_history (record_event key_type current_time (key_history e)) e in
  let '(matched_mapping, remaining_history) :=
    check_sequence_match (sequence_mappings e) (key_history e) in
  match matched_mapping with
  | Some mapping =>
      let e := cancel_pending_single_key e in
      match execute_shortcut (action mapping) e with
      | (inr _, e) =>
          let e := log (InfoSequenceMapping (sequence mapping) (action mapping)) e in
          (true, set_key_history [] e)
      | (inl err, e) => (false, log (ErrorSequenceFailed err) e)
      end
  | None =>
      match button_mappings e !! key_type with
      | Some act =>
          let e := cancel_pending_single_key e in
          let _pending_single_key := (key_type, act, current_time) in
          let '(_pending_timer, e) := start_timer current_time e in
          (true, log (InfoSingleDetected key_type act) e)
      | None => (false, e)
      end
  end.

(** ** Listener lifecycle *)

Inductive Message := AlreadyRunning | Started | NotRunning | Stopped.

Record Reply := { success : bool; message : Message }.

(** [start_listener]; the thread it starts subscribes to the mouse. *)
Definition start_listener (fetched : Fetch) (e : Engine) : Reply * Engine :=
  if is_listening e then ({| success := false; message := AlreadyRunning |}, e)
  else
    let e := load_mappings fetched e in
    let e := set_listener_threads (S (listener_threads e)) e in
    ({| success := true; message := Started |}, set_is_listening true e).

Definition stop_listener (e : Engine) : Reply * Engine :=
  if negb (is_listening e) then ({| success := false; message := NotRunning |}, e)
  else
    let e := cancel_pending_single_key e in
    let e := set_key_history [] e in
    ({| success := true; message := Stopped |}, set_is_listening false e).

(** ** Runs *)

(** What can happen to the engine: a button release delivered by the
    mouse hook, a timer thread waking up, and the three API calls. *)
Inductive Event :=
| Click (button_number : Z) (now : Q)
| Elapse (timer : nat) (now : Q)
| Start (fetched : Fetch)
| Stop
| Reload (fetched : Fetch).

Definition step (e : Engine) (ev : Event) : Engine :=
  match ev with
  | Click n now => snd (handle_mouse_button n now e)
  | Elapse id now => timer_elapse id now e
  | Start f => snd (start_listener f e)
  | Stop => snd (stop_listener e)
  | Reload f => load_mappings f e
  end.

Definition run (evs : list Event) (e : Engine) : Engine := foldl step e evs.

End Device.

(** The shortcuts whose execution completed, oldest first, as the log
    records them. *)
Definition executions (e : Engine) : list string :=
  omap (λ entry, match entry with InfoExecuted s => Some s | _ => None end) (app_log e).

(** The timers still due to fire. *)
Definition is_waiting (t : TimerState) : bool :=
  match t with Waiting _ => true | _ => false end.

Definition live_timers (e : Engine) : list TimerState :=
  List.filter is_waiting (timers e).

(** * Specification vocabulary *)

(** The candidate [seq] equals, position by position, the keys of the
    trailing slice of [recent_history] of the same length. *)
Definition matches_tail (recent_history : list HistoryEntry) (seq : list string) : Prop :=
  length seq ≤ length recent_history ∧
  fst <$> last_n (length seq) recent_history = seq.

Definition longer_first (a b : SequenceMapping) : Prop :=
  length (sequence b) ≤ length (sequence a).

(** The parts of a shortcut string that the loop does not skip: the
    string lower-cased, split at [+], each part stripped, blanks
    dropped. *)
Definition parts_of (shortcut : string) : list string :=
  filter (λ p, p ≠ EmptyString) (Py.strip <$> Py.split "+" (Py.lower shortcut)).

Definition known_name (p : string) : Prop :=
  is_Some (_modifier_map !! p) ∨ is_Some (_special_keys !! p).

Definition multi_character (p : string) : Prop := 1 < String.length p.

(** The number that follows the [f] of a function-key token. *)
Definition function_key_number (p : string) : option Z :=
  if Py.startswith "f" p then Py.int (Py.tail p) else None.

Definition unknown_token (p : string) : Prop :=
  multi_character p ∧ ¬ known_name p ∧ function_key_number p = None.

Definition out_of_range_function_key (p : string) : Prop :=
  multi_character p ∧ ¬ known_name p ∧
  ∃ n, function_key_number p = Some n ∧ ¬ (1 ≤ n ≤ 20)%Z.

Definition invalid_token (p : string) : Prop :=
  unknown_token p ∨ out_of_range_function_key p.


(** The key a valid token stands for. *)
Inductive denotes : string → KeyToken → Prop :=
| denotes_modifier p k : _modifier_map !! p = Some k → denotes p (Named k)
| denotes_special p k : _special_keys !! p = Some k → denotes p (Named k)
| denotes_function p n :
    multi_character p → function_key_number p = Some n → (1 ≤ n ≤ 20)%Z →
    denotes p (Named (Key_f (Z.to_nat n)))
| denotes_char c : denotes (String c EmptyString) (Char c).

(** Every entry of the cache is what a fresh parse of its key gives. *)
Definition cache_ok (cache : gmap string (list KeyToken)) : Prop :=
  ∀ s keys, cache !! s = Some keys → parse_fresh s = inr keys.

(** The calls a shortcut with tokens [keys] asks of the keyboard. *)
Definition press_release (keys : list KeyToken) : list KbCall :=
  (Press <$> keys) ++ (Release <$> reverse keys).

Definition fresh (now : Q) (entry : HistoryEntry) : Prop :=
  (now - SEQUENCE_TIMEOUT <= snd entry)%Q.

Definition earlier (a b : HistoryEntry) : Prop := (snd a <= snd b)%Q.

(** The history is in the order of its time stamps, none of them later
    than [now]: what a clock that never runs backwards produces. *)
Definition history_wf (now : Q) (h : list HistoryEntry) : Prop :=
  StronglySorted earlier h ∧ Forall (λ entry, (snd entry <= now)%Q) h.

(** ** Fixtures *)

(** A sequence record and a single-key record of the configuration
    store. *)
Definition sequence_button (seq : list string) (act : string) : Button :=
  {| btn_action := Some act; btn_sequence := Some seq; btn_keyType := None;
     btn_name := None |}.

Definition single_button (key_type act : string) : Button :=
  {| btn_action := Some act; btn_sequence := None; btn_keyType := Some key_type;
     btn_name := None |}.

(** A keyboard that takes every call. *)
Definition accepts_all : KbCall → bool := λ _, true.

(** The timers of [e] after [cancel_pending_single_key]. *)
Definition timers_after_cancel (e : Engine) : list TimerState :=
  match pending_timer e with
  | Some id => alter cancel_timer id (timers e)
  | None => timers e
  end.

Definition is_elapse (ev : Event) : Prop :=
  match ev with Elapse _ _ => True | _ => False end.

(** The button events of a run carry time stamps that never decrease,
    starting no earlier than [prev]. *)
Fixpoint chronological (prev : Q) (evs : list Event) : Prop :=
  match evs with
  | [] => True
  | Click _ now :: rest => (prev <= now)%Q ∧ chronological now rest
  | _ :: rest => chronological prev rest
  end.

(** * Further functions of the module *)

(** [is_listener_running] *)
Definition is_listener_running (e : Engine) : bool := is_listening e.

(** [reload_and_restart_listener]: stop a running listener, then start
    one (the pause between the two is not modelled). *)
Definition reload_and_restart_listener (fetched : Fetch) (e : Engine) : Reply * Engine :=
  let e := if is_listening e then snd (stop_listener e) else e in
  start_listener fetched e.

(** ** Vocabulary of the further properties *)

(** The action of a record the loader does not skip. *)
Definition usable_action (btn : Button) : option string :=
  match btn_action btn with
  | Some act => if bool_decide (act = EmptyString) then None else Some act
  | None => None
  end.

(** A record read as a sequence mapping: it has an action and a
    non-empty sequence. *)
Definition as_sequence (btn : Button) : option SequenceMapping :=
  match usable_action btn, btn_sequence btn with
  | Some act, Some (k :: ks) =>
      Some {| sequence := k :: ks; action := act;
              name := default EmptyString (btn_name btn) |}
  | _, _ => None
  end.

(** A record read as a single-key mapping: it has an action, no
    sequence to speak of, and a key type. *)
Definition as_single (btn : Button) : option (string * string) :=
  match usable_action btn, btn_sequence btn, btn_keyType btn with
  | Some act, Some (_ :: _), _ => None
  | Some act, _, Some key_type =>
      if bool_decide (key_type = EmptyString) then None else Some (key_type, act)
  | _, _, _ => None
  end.

(** The events that do not load the tables. *)
Definition keeps_tables (ev : Event) : Prop :=
  match ev with
  | Start _ | Reload _ => False
  | _ => True
  end.

(** No character of the string is an upper-case letter. *)
Fixpoint no_upper (s : string) : Prop :=
  match s with
  | EmptyString => True
  | String c r => Py.is_upper c = false ∧ no_upper r
  end.

Definition token_no_upper (k : KeyToken) : Prop :=
  match k with
  | Char c => Py.is_upper c = false
  | Named _ => True
  end.

(** A keyboard that refuses to press one character key and takes every
    other call. *)
Definition refuses_press_of (c : ascii) : KbCall → bool :=
  λ call, match call with
          | Press (Char c') => negb (Ascii.eqb c' c)
          | _ => true
          end.

(** The parser's loop on parts that are already stripped and not
    blank. *)
Fixpoint parse_stripped (parts : list string) (keys : list KeyToken)
  : ParseError + list KeyToken :=
  match parts with
  | [] => inr keys
  | part :: rest =>
      match parse_part part with
      | inl e => inl e
      | inr k => parse_stripped rest (keys ++ [k])
      end
  end.

(** The history is in time order and spans no more than the timeout. *)
Definition within_timeout (h : list HistoryEntry) : Prop :=
  StronglySorted earlier h ∧
  ∀ a b, a ∈ h → b ∈ h → (snd b - snd a <= SEQUENCE_TIMEOUT)%Q.

(** * Properties *)

(** ** The matcher *)

Lemma last_n_length {A} n (l : list A) : length (last_n n l) = min n (length l).
Proof. unfold last_n. rewrite length_drop. lia. Qed.

Lemma last_n_suffix {A} n (l : list A) : last_n n l `suffix_of` l.
Proof. apply suffix_drop. Qed.

Lemma match_from_lookup rh base seq : ∀ i,
  match_from rh base i seq = true ↔
  ∀ j key, seq !! j = Some key → ∃ t, rh !! (base + i + j)%nat = Some (key, t).
Proof.
  induction seq as [|seq_key rest IH]; intros i; simpl.
  - split; [intros _ j key H; rewrite lookup_nil in H; discriminate | done].
  - destruct (rh !! (base + i)%nat) as [[hist_key t]|] eqn:Hlk.
    + case_bool_decide as Hk.
      * rewrite IH. split.
        -- intros H [|j] key Hj; simpl in Hj.
           ++ injection Hj as <-. exists t. rewrite Nat.add_0_r, Hlk, Hk. done.
           ++ destruct (H j key Hj) as [t' Ht']. exists t'.
              rewrite <- Ht'. f_equal. lia.
        -- intros H j key Hj. destruct (H (S j) key Hj) as [t' Ht'].
           exists t'. rewrite <- Ht'. f_equal. lia.
      * split; [done|]. intros H. destruct (H 0%nat seq_key eq_refl) as [t' Ht'].
        rewrite Nat.add_0_r, Hlk in Ht'. congruence.
    + split; [done|]. intros H. destruct (H 0%nat seq_key eq_refl) as [t' Ht'].
      rewrite Nat.add_0_r, Hlk in Ht'. discriminate.
Qed.

Lemma tail_keys_lookup (rh : list HistoryEntry) (seq : list string) :
  length seq ≤ length rh →
  (∀ j key, seq !! j = Some key →
     ∃ t, rh !! (length rh - length seq + 0 + j)%nat = Some (key, t)) ↔
  fst <$> last_n (length seq) rh = seq.
Proof.
  intros Hlen. unfold last_n. split.
  - intros H. apply list_eq. intros j.
    rewrite list_lookup_fmap, lookup_drop.
    destruct (seq !! j) as [key|] eqn:Hj.
    + destruct (H j key Hj) as [t Ht]. rewrite Nat.add_0_r in Ht. by rewrite Ht.
    + apply lookup_ge_None in Hj. rewrite lookup_ge_None_2; [done|lia].
  - intros Heq j key Hj. rewrite <- Heq in Hj at 1.
    rewrite list_lookup_fmap, lookup_drop in Hj. rewrite Nat.add_0_r.
    destruct (rh !! (length rh - length seq + j)%nat) as [[k t]|]; simpl in Hj;
      [|discriminate].
    injection Hj as ->. by exists t.
Qed.

(** The two nested loops decide [matches_tail]. *)
Lemma match_from_matches_tail rh seq :
  length seq ≤ length rh →
  match_from rh (length rh - length seq) 0 seq = true ↔ matches_tail rh seq.
Proof.
  intros Hlen. rewrite match_from_lookup, tail_keys_lookup by done.
  unfold matches_tail. tauto.
Qed.

Lemma first_match_Some rh ms m rem :
  first_match rh ms = (Some m, rem) ↔
  ∃ pre post, ms = pre ++ m :: post ∧
    Forall (λ x, ¬ matches_tail rh (sequence x)) pre ∧
    matches_tail rh (sequence m) ∧
    rem = take (length rh - length (sequence m)) rh.
Proof.
  induction ms as [|x rest IH]; simpl.
  - split; [discriminate|]. intros (pre & post & H & _). by destruct pre.
  - destruct (length rh <? length (sequence x))%nat eqn:Hlt.
    + apply Nat.ltb_lt in Hlt.
      assert (¬ matches_tail rh (sequence x)) as Hno by (intros [? _]; lia).
      rewrite IH. split.
      * intros (pre & post & -> & Hpre & Hm & ->).
        exists (x :: pre), post. split_and!; [done | by constructor | done | done].
      * intros (pre & post & Heq & Hpre & Hm & ->).
        destruct pre as [|y pre]; simpl in Heq; injection Heq as -> ->; [done|].
        apply Forall_cons in Hpre as [_ Hpre]. by exists pre, post.
    + apply Nat.ltb_ge in Hlt.
      destruct (match_from rh (length rh - length (sequence x)) 0 (sequence x)) eqn:Hm.
      * apply match_from_matches_tail in Hm; [|done]. split.
        -- intros [= <- <-]. exists [], rest. split_and!; [done | constructor | done | done].
        -- intros (pre & post & Heq & Hpre & Hm' & ->).
           destruct pre as [|y pre]; simpl in Heq; injection Heq as -> ->; [done|].
           apply Forall_cons in Hpre as [Hy _]. done.
      * assert (¬ matches_tail rh (sequence x)) as Hno.
        { intros H. apply match_from_matches_tail in H; [|done]. congruence. }
        rewrite IH. split.
        -- intros (pre & post & -> & Hpre & Hm' & ->).
           exists (x :: pre), post. split_and!; [done | by constructor | done | done].
        -- intros (pre & post & Heq & Hpre & Hm' & ->).
           destruct pre as [|y pre]; simpl in Heq; injection Heq as -> ->; [done|].
           apply Forall_cons in Hpre as [_ Hpre]. by exists pre, post.
Qed.

Lemma first_match_None rh ms rem :
  first_match rh ms = (None, rem) ↔
  Forall (λ x, ¬ matches_tail rh (sequence x)) ms ∧ rem = rh.
Proof.
  induction ms as [|x rest IH]; simpl.
  - split; [intros [= <-]; by split | intros [_ ->]; done].
  - destruct (length rh <? length (sequence x))%nat eqn:Hlt.
    + apply Nat.ltb_lt in Hlt. rewrite IH, Forall_cons.
      assert (¬ matches_tail rh (sequence x)) by (intros [? _]; lia). tauto.
    + apply Nat.ltb_ge in Hlt.
      destruct (match_from rh (length rh - length (sequence x)) 0 (sequence x)) eqn:Hm.
      * apply match_from_matches_tail in Hm; [|done]. split; [discriminate|].
        intros [H _]. apply Forall_cons in H as [H _]. done.
      * assert (¬ matches_tail rh (sequence x)) as Hno.
        { intros H. apply match_from_matches_tail in H; [|done]. congruence. }
        rewrite IH, Forall_cons. tauto.
Qed.

(** ** The loader's sort *)

Lemma insert_by_length_perm m l : insert_by_length m l ≡ₚ m :: l.
Proof.
  induction l as [|x r IH]; simpl; [done|].
  destruct (length (sequence x) <=? length (sequence m))%nat; [done|].
  rewrite IH. apply Permutation_swap.
Qed.

Lemma sort_by_length_desc_perm l : sort_by_length_desc l ≡ₚ l.
Proof.
  induction l as [|x r IH]; simpl; [done|].
  by rewrite insert_by_length_perm, IH.
Qed.

Lemma insert_by_length_sorted m l :
  StronglySorted longer_first l → StronglySorted longer_first (insert_by_length m l).
Proof.
  induction 1 as [|x r Hr IH Hx]; simpl.
  - repeat constructor.
  - destruct (length (sequence x) <=? length (sequence m))%nat eqn:Hle.
    + apply Nat.leb_le in Hle. constructor; [by constructor|].
      constructor; [done|]. eapply Forall_impl; [exact Hx|].
      unfold longer_first. intros; simpl in *; lia.
    + apply Nat.leb_gt in Hle. constructor; [done|].
      rewrite insert_by_length_perm. constructor; [|done].
      unfold longer_first. lia.
Qed.

Lemma sort_by_length_desc_sorted l : StronglySorted longer_first (sort_by_length_desc l).
Proof.
  induction l as [|x r IH]; simpl; [constructor|]. by apply insert_by_length_sorted.
Qed.

Lemma load_mappings_sorted buttons e :
  StronglySorted longer_first (sequence_mappings (load_mappings (FetchReturned buttons) e)).
Proof.
  unfold load_mappings. destruct (foldl load_button (∅, []) buttons) as [bm sm].
  simpl. apply sort_by_length_desc_sorted.
Qed.

(** In a list kept longest first, the first match is a longest match. *)
Lemma first_match_longest rh ms m rem :
  StronglySorted longer_first ms →
  first_match rh ms = (Some m, rem) →
  ∀ m', m' ∈ ms → matches_tail rh (sequence m') →
    length (sequence m') ≤ length (sequence m).
Proof.
  intros Hs Hfm m' Hin Hm'.
  apply first_match_Some in Hfm as (pre & post & -> & Hpre & Hm & _).
  apply StronglySorted_app_1_r, StronglySorted_cons in Hs as [Hall _].
  apply elem_of_app in Hin as [Hin|Hin].
  - rewrite Forall_forall in Hpre. by destruct (Hpre m' Hin).
  - apply elem_of_cons in Hin as [->|Hin]; [done|].
    rewrite Forall_forall in Hall. apply (Hall m' Hin).
Qed.

(** ** The parser *)

Lemma parse_part_inr p k : parse_part p = inr k → denotes p k ∧ ¬ invalid_token p.
Proof.
  unfold parse_part, invalid_token, unknown_token, out_of_range_function_key, known_name.
  destruct (_modifier_map !! p) as [km|] eqn:Hm.
  { intros [= <-]. split; [by constructor|]. intros [(_ & H & _)|(_ & H & _)]; apply H; eauto. }
  destruct (_special_keys !! p) as [ks|] eqn:Hs.
  { intros [= <-]. split; [by apply denotes_special|].
    intros [(_ & H & _)|(_ & H & _)]; apply H; eauto. }
  destruct (Py.startswith "f" p && (1 <? String.length p)%nat) eqn:Hf.
  - apply andb_prop in Hf as [Hf Hlen]. apply Nat.ltb_lt in Hlen.
    assert (function_key_number p = Py.int (Py.tail p)) as Hnum
      by (unfold function_key_number; by rewrite Hf).
    destruct (Py.int (Py.tail p)) as [n|]; [|discriminate].
    case_bool_decide as Hr; [|discriminate].
    unfold Key_getattr_f. rewrite bool_decide_eq_true_2 by done. intros [= <-].
    split; [by constructor|].
    intros [(_ & _ & H)|(_ & _ & n' & H & Hn')]; rewrite Hnum in H; [discriminate|].
    injection H as <-. done.
  - destruct p as [|c [|c' r]]; [discriminate| |discriminate].
    intros [= <-]. split; [constructor|].
    intros [(H & _)|(H & _)]; unfold multi_character in H; simpl in H; lia.
Qed.


Lemma parse_loop_inr parts : ∀ keys ks,
  parse_loop parts keys = inr ks →
  ∃ toks, ks = keys ++ toks ∧
    Forall2 (λ p k, parse_part p = inr k)
      (filter (λ p, p ≠ EmptyString) (Py.strip <$> parts)) toks.
Proof.
  induction parts as [|part rest IH]; intros keys ks; simpl.
  - intros [= <-]. exists []. by rewrite app_nil_r.
  - rewrite filter_cons. case_bool_decide as He.
    + rewrite decide_False by (intros H; done). apply IH.
    + rewrite decide_True by done.
      destruct (parse_part (Py.strip part)) as [e|k] eqn:Hp; [discriminate|].
      intros H. apply IH in H as (toks & -> & HF).
      exists (k :: toks). rewrite <- app_assoc. split; [done|]. by constructor.
Qed.


Lemma parse_fresh_inr shortcut keys :
  parse_fresh shortcut = inr keys →
  keys ≠ [] ∧ Forall2 (λ p k, parse_part p = inr k) (parts_of shortcut) keys.
Proof.
  unfold parse_fresh, parts_of.
  destruct (parse_loop _ []) as [e|ks] eqn:Hl; [discriminate|].
  apply parse_loop_inr in Hl as (toks & -> & HF). simpl.
  destruct toks; [discriminate|]. intros [= <-]. done.
Qed.




Lemma cache_ok_empty : cache_ok ∅.
Proof. intros s keys H. by rewrite lookup_empty in H. Qed.

Lemma parse_shortcut_fst shortcut cache :
  cache_ok cache → fst (_parse_shortcut shortcut cache) = parse_fresh shortcut.
Proof.
  intros Hc. unfold _parse_shortcut.
  destruct (cache !! shortcut) as [keys|] eqn:Hl; simpl.
  - symmetry. by apply Hc.
  - by destruct (parse_fresh shortcut).
Qed.

Lemma parse_shortcut_cache_ok shortcut cache :
  cache_ok cache → cache_ok (snd (_parse_shortcut shortcut cache)).
Proof.
  intros Hc. unfold _parse_shortcut.
  destruct (cache !! shortcut) as [keys|] eqn:Hl; simpl; [done|].
  destruct (parse_fresh shortcut) as [e|keys] eqn:Hp; simpl; [done|].
  intros s ks. rewrite lookup_insert. case_decide as Hs; [|apply Hc].
  intros [= <-]. by subst.
Qed.

(** ** The executors *)

Lemma issue_accepted dev call keys : ∀ calls,
  Forall (λ k, dev (call k) = true) keys →
  issue dev call keys calls = (None, calls ++ (call <$> keys)).
Proof.
  induction keys as [|k rest IH]; intros calls HF; simpl.
  - by rewrite app_nil_r.
  - apply Forall_cons in HF as [Hk HF]. rewrite Hk, IH by done.
    by rewrite <- app_assoc.
Qed.

Lemma issue_None dev call keys : ∀ calls calls',
  issue dev call keys calls = (None, calls') →
  calls' = calls ++ (call <$> keys) ∧ Forall (λ k, dev (call k) = true) keys.
Proof.
  induction keys as [|k rest IH]; intros calls calls'; simpl.
  - intros [= <-]. by rewrite app_nil_r.
  - destruct (dev (call k)) eqn:Hk; [|discriminate].
    intros H. apply IH in H as [-> HF]. rewrite <- app_assoc. split; [done|].
    by constructor.
Qed.

Lemma issue_Some dev call keys : ∀ calls c calls',
  issue dev call keys calls = (Some c, calls') →
  dev c = false ∧ ∃ issued, calls' = calls ++ issued ∧ issued `prefix_of` (call <$> keys).
Proof.
  induction keys as [|k rest IH]; intros calls c calls'; simpl; [discriminate|].
  destruct (dev (call k)) eqn:Hk.
  - intros H. apply IH in H as (Hc & issued & -> & Hpre). split; [done|].
    exists (call k :: issued). rewrite <- app_assoc. split; [done|].
    by apply prefix_cons.
  - intros [= <- <-]. split; [done|]. exists [call k]. split; [done|].
    apply prefix_cons, prefix_nil.
Qed.

(** What one run of [execute_shortcut] leaves of the engine, in the
    three ways it can end. *)
Lemma execute_shortcut_cases dev shortcut e :
  let cache := snd (_parse_shortcut shortcut (_shortcut_cache e)) in
  match fst (_parse_shortcut shortcut (_shortcut_cache e)) with
  | inl err =>
      execute_shortcut dev shortcut e =
        (inl (ParseFailed err), log (ErrorExecFailed (ParseFailed err)) e)
  | inr keys =>
      (Forall (λ c, dev c = true) (press_release keys) ∧
       execute_shortcut dev shortcut e =
         (inr true,
          log (InfoExecuted shortcut)
            (set_kb_calls (kb_calls e ++ press_release keys)
               (log (InfoExecuting shortcut) (set_shortcut_cache cache e)))))
      ∨
      (∃ c issued,
         dev c = false ∧ issued `prefix_of` press_release keys ∧
         execute_shortcut dev shortcut e =
           (inl (DeviceFailed c),
            log (ErrorExecFailed (DeviceFailed c))
              (set_kb_calls (kb_calls e ++ issued)
                 (log (InfoExecuting shortcut) (set_shortcut_cache cache e)))))
  end.
Proof.
  unfold execute_shortcut, press_release.
  destruct (_parse_shortcut shortcut (_shortcut_cache e)) as [[err|keys] cache]; simpl;
    [done|].
  destruct (issue dev Press keys (kb_calls e)) as [[c|] calls] eqn:Hp.
  - right. apply issue_Some in Hp as (Hc & issued & -> & Hpre).
    exists c, issued. split_and!; [done| |done]. by apply prefix_app_r.
  - apply issue_None in Hp as [-> HFp].
    destruct (issue dev Release (reverse keys) _) as [[c|] calls] eqn:Hr.
    + right. apply issue_Some in Hr as (Hc & issued & -> & Hpre).
      exists c, ((Press <$> keys) ++ issued). rewrite <- app_assoc.
      split_and!; [done| |done]. by apply prefix_app.
    + left. apply issue_None in Hr as [-> HFr]. rewrite <- app_assoc.
      split; [|done]. apply Forall_app. split; by apply Forall_fmap.
Qed.

Lemma execute_shortcut_fast_cases dev shortcut e :
  let cache := snd (_parse_shortcut shortcut (_shortcut_cache e)) in
  match fst (_parse_shortcut shortcut (_shortcut_cache e)) with
  | inl err => execute_shortcut_fast dev shortcut e = (false, e)
  | inr keys =>
      (Forall (λ c, dev c = true) (press_release keys) ∧
       execute_shortcut_fast dev shortcut e =
         (true, set_kb_calls (kb_calls e ++ press_release keys)
                  (set_shortcut_cache cache e)))
      ∨
      (∃ c issued,
         dev c = false ∧ issued `prefix_of` press_release keys ∧
         execute_shortcut_fast dev shortcut e =
           (false, set_kb_calls (kb_calls e ++ issued) (set_shortcut_cache cache e)))
  end.
Proof.
  unfold execute_shortcut_fast, press_release.
  destruct (_parse_shortcut shortcut (_shortcut_cache e)) as [[err|keys] cache]; simpl;
    [done|].
  destruct (issue dev Press keys (kb_calls e)) as [[c|] calls] eqn:Hp.
  - right. apply issue_Some in Hp as (Hc & issued & -> & Hpre).
    exists c, issued. split_and!; [done| |done]. by apply prefix_app_r.
  - apply issue_None in Hp as [-> HFp].
    destruct (issue dev Release (reverse keys) _) as [[c|] calls] eqn:Hr.
    + right. apply issue_Some in Hr as (Hc & issued & -> & Hpre).
      exists c, ((Press <$> keys) ++ issued). rewrite <- app_assoc.
      split_and!; [done| |done]. by apply prefix_app.
    + left. apply issue_None in Hr as [-> HFr]. rewrite <- app_assoc.
      split; [|done]. apply Forall_app. split; by apply Forall_fmap.
Qed.

(** A shortcut that parses, on a keyboard that takes its calls. *)
Lemma execute_shortcut_ok dev shortcut e keys :
  cache_ok (_shortcut_cache e) →
  parse_fresh shortcut = inr keys →
  Forall (λ c, dev c = true) (press_release keys) →
  execute_shortcut dev shortcut e =
    (inr true,
     log (InfoExecuted shortcut)
       (set_kb_calls (kb_calls e ++ press_release keys)
          (log (InfoExecuting shortcut)
             (set_shortcut_cache (snd (_parse_shortcut shortcut (_shortcut_cache e))) e)))).
Proof.
  intros Hc Hp Hdev. pose proof (parse_shortcut_fst shortcut _ Hc) as Hfst.
  unfold execute_shortcut.
  destruct (_parse_shortcut shortcut (_shortcut_cache e)) as [r cache]; simpl in *.
  subst r. rewrite Hp. unfold press_release in *. apply Forall_app in Hdev as [Hpr Hre].
  rewrite Forall_fmap in Hpr, Hre.
  rewrite (issue_accepted dev Press) by done. simpl.
  rewrite (issue_accepted dev Release) by done. by rewrite <- app_assoc.
Qed.

Lemma execute_shortcut_frame dev shortcut e :
  let e' := snd (execute_shortcut dev shortcut e) in
  is_listening e' = is_listening e ∧ listener_threads e' = listener_threads e ∧
  button_mappings e' = button_mappings e ∧ sequence_mappings e' = sequence_mappings e ∧
  key_history e' = key_history e ∧ pending_single_key e' = pending_single_key e ∧
  pending_timer e' = pending_timer e ∧ timers e' = timers e.
Proof.
  pose proof (execute_shortcut_cases dev shortcut e) as H. simpl in *.
  destruct (fst (_parse_shortcut shortcut (_shortcut_cache e))) as [err|keys].
  - by rewrite H.
  - by destruct H as [[_ ->]|(c & issued & _ & _ & ->)].
Qed.

Lemma execute_shortcut_cache_ok dev shortcut e :
  cache_ok (_shortcut_cache e) →
  cache_ok (_shortcut_cache (snd (execute_shortcut dev shortcut e))).
Proof.
  intros Hc. pose proof (parse_shortcut_cache_ok shortcut _ Hc) as Hc'.
  pose proof (execute_shortcut_cases dev shortcut e) as H. simpl in *.
  destruct (fst (_parse_shortcut shortcut (_shortcut_cache e))) as [err|keys].
  - by rewrite H.
  - by destruct H as [[_ ->]|(c & issued & _ & _ & ->)].
Qed.

Lemma executions_log entry e :
  executions (log entry e) =
  executions e ++ match entry with InfoExecuted s => [s] | _ => [] end.
Proof. unfold executions. simpl. rewrite omap_app. by destruct entry. Qed.

(** A shortcut is counted as executed exactly when [execute_shortcut]
    returns. *)
Lemma execute_shortcut_executions dev shortcut e :
  executions (snd (execute_shortcut dev shortcut e)) =
  executions e ++
    match fst (execute_shortcut dev shortcut e) with inr _ => [shortcut] | inl _ => [] end.
Proof.
  pose proof (execute_shortcut_cases dev shortcut e) as H. simpl in *.
  destruct (fst (_parse_shortcut shortcut (_shortcut_cache e))) as [err|keys].
  - rewrite H. simpl. rewrite executions_log. done.
  - destruct H as [[_ ->]|(c & issued & _ & _ & ->)]; simpl;
      rewrite executions_log; unfold executions; simpl;
      rewrite omap_app; simpl; by rewrite ?app_nil_r.
Qed.

(** ** The key history *)

Lemma Qltb_lt x y : Qltb x y = true ↔ (x < y)%Q.
Proof.
  unfold Qltb. rewrite negb_true_iff. split.
  - intros H. apply Qnot_le_lt. intros Hle. apply Qle_bool_iff in Hle. congruence.
  - intros H. destruct (Qle_bool y x) eqn:E; [|done].
    apply Qle_bool_iff in E. lra.
Qed.

Lemma Qltb_ge x y : Qltb x y = false ↔ (y <= x)%Q.
Proof.
  split.
  - intros H. apply Qnot_lt_le. intros Hlt. apply Qltb_lt in Hlt. congruence.
  - intros H. destruct (Qltb x y) eqn:E; [|done]. apply Qltb_lt in E. lra.
Qed.

Lemma prune_suffix now h : prune now h `suffix_of` h.
Proof.
  induction h as [|[k t] rest IH]; simpl; [done|].
  destruct (Qltb t (now - SEQUENCE_TIMEOUT)); [by apply suffix_cons_r|done].
Qed.

Lemma prune_fresh now h : StronglySorted earlier h → Forall (fresh now) (prune now h).
Proof.
  induction 1 as [|[k t] rest Hs IH Hall]; simpl; [constructor|].
  destruct (Qltb t (now - SEQUENCE_TIMEOUT)) eqn:Hlt; [done|].
  apply Qltb_ge in Hlt. constructor; [done|].
  eapply Forall_impl; [exact Hall|]. unfold earlier, fresh. simpl. intros; lra.
Qed.

Lemma history_wf_suffix now h h' : h' `suffix_of` h → history_wf now h → history_wf now h'.
Proof.
  intros [pre ->] [Hs Hall]. split.
  - by apply StronglySorted_app_1_r in Hs.
  - by apply Forall_app in Hall as [_ ?].
Qed.

Lemma history_wf_snoc now now' key_type h :
  (now <= now')%Q → history_wf now h → history_wf now' (h ++ [(key_type, now')]).
Proof.
  intros Hle [Hs Hall]. split.
  - apply StronglySorted_app_2; [|done|repeat constructor].
    intros a b Ha Hb. apply list_elem_of_singleton in Hb as ->.
    rewrite Forall_forall in Hall. specialize (Hall a Ha). unfold earlier. simpl. lra.
  - apply Forall_app. split; [|repeat constructor; simpl; lra].
    eapply Forall_impl; [exact Hall|]. simpl. intros; lra.
Qed.

Lemma record_event_wf now now' key_type h :
  (now <= now')%Q → history_wf now h →
  history_wf now' (record_event key_type now' h) ∧
  Forall (fresh now') (record_event key_type now' h).
Proof.
  intros Hle Hwf. pose proof (history_wf_snoc _ _ key_type _ Hle Hwf) as Hwf'.
  split.
  - eapply history_wf_suffix; [apply prune_suffix|done].
  - apply prune_fresh. by destruct Hwf'.
Qed.

(** The event just recorded survives the pruning. *)
Lemma prune_snoc now key_type h :
  prune now (h ++ [(key_type, now)]) = prune now h ++ [(key_type, now)].
Proof.
  induction h as [|[k t] rest IH]; simpl.
  - rewrite (proj2 (Qltb_ge _ _)); [done|]. unfold SEQUENCE_TIMEOUT. lra.
  - by destruct (Qltb t (now - SEQUENCE_TIMEOUT)).
Qed.

(** ** The button handler, branch by branch *)

Section Handler.

Variable dev : KbCall → bool.
Variables (button_number : Z) (current_time : Q) (e : Engine).

Let key_type := key_type_of button_number.
Let history := record_event key_type current_time (key_history e).
Let recorded := set_key_history history e.

Lemma handle_sequence_match mapping remaining :
  check_sequence_match (sequence_mappings e) history = (Some mapping, remaining) →
  handle_mouse_button dev button_number current_time e =
    match execute_shortcut dev (action mapping) (cancel_pending_single_key recorded) with
    | (inr _, e') =>
        (true, set_key_history []
                 (log (InfoSequenceMapping (sequence mapping) (action mapping)) e'))
    | (inl err, e') => (false, log (ErrorSequenceFailed err) e')
    end.
Proof.
  intros H. unfold handle_mouse_button.
  cbn [key_history sequence_mappings set_key_history].
  fold key_type. fold history. by rewrite H.
Qed.

Lemma handle_single_key remaining act :
  check_sequence_match (sequence_mappings e) history = (None, remaining) →
  button_mappings e !! key_type = Some act →
  handle_mouse_button dev button_number current_time e =
    (true, log (InfoSingleDetected key_type act)
             (snd (start_timer current_time (cancel_pending_single_key recorded)))).
Proof.
  intros H Hb. unfold handle_mouse_button.
  cbn [key_history sequence_mappings button_mappings set_key_history].
  fold key_type. fold history. by rewrite H, Hb.
Qed.

Lemma handle_unmapped remaining :
  check_sequence_match (sequence_mappings e) history = (None, remaining) →
  button_mappings e !! key_type = None →
  handle_mouse_button dev button_number current_time e = (false, recorded).
Proof.
  intros H Hb. unfold handle_mouse_button.
  cbn [key_history sequence_mappings button_mappings set_key_history].
  fold key_type. fold history. by rewrite H, Hb.
Qed.

End Handler.


Ltac fields :=
  cbn [is_listening listener_threads button_mappings sequence_mappings key_history
       pending_single_key pending_timer _shortcut_cache timers kb_calls app_log
       set_is_listening set_listener_threads set_mappings set_key_history
       set_pending_single_key set_pending_timer set_shortcut_cache set_timers
       set_kb_calls log fst snd] in *.

Lemma cancel_pending_single_key_frame e :
  let e' := cancel_pending_single_key e in
  is_listening e' = is_listening e ∧ listener_threads e' = listener_threads e ∧
  button_mappings e' = button_mappings e ∧ sequence_mappings e' = sequence_mappings e ∧
  key_history e' = key_history e ∧ _shortcut_cache e' = _shortcut_cache e ∧
  kb_calls e' = kb_calls e ∧ app_log e' = app_log e.
Proof. unfold cancel_pending_single_key. by destruct (pending_timer e). Qed.

Lemma cancel_pending_single_key_clears e :
  let e' := cancel_pending_single_key e in
  pending_single_key e' = None ∧ pending_timer e' = None ∧
  timers e' = timers_after_cancel e.
Proof.
  unfold cancel_pending_single_key, timers_after_cancel.
  destruct (pending_timer e) eqn:E; simpl; by rewrite ?E.
Qed.


(** What the handler leaves behind on each of its paths. *)
Section Effects.

Variable dev : KbCall → bool.
Variables (button_number : Z) (current_time : Q) (e : Engine).

Let key_type := key_type_of button_number.
Let history := record_event key_type current_time (key_history e).
Let after := handle_mouse_button dev button_number current_time e.

(** Every path leaves the tables, the listener flag and the thread
    count alone, keeps the cache sound, and never stores a pending
    key. *)
Lemma handle_mouse_button_frame :
  button_mappings (snd after) = button_mappings e ∧
  sequence_mappings (snd after) = sequence_mappings e ∧
  is_listening (snd after) = is_listening e ∧
  listener_threads (snd after) = listener_threads e ∧
  (cache_ok (_shortcut_cache e) → cache_ok (_shortcut_cache (snd after))) ∧
  (pending_single_key e = None → pending_single_key (snd after) = None).
Proof.
  unfold after.
  destruct (check_sequence_match (sequence_mappings e) history)
    as [[mapping|] remaining] eqn:Hm.
  - rewrite (handle_sequence_match _ _ _ _ _ _ Hm). fold key_type. fold history.
    set (e1 := cancel_pending_single_key (set_key_history history e)).
    pose proof (execute_shortcut_frame dev (action mapping) e1) as Hf.
    pose proof (execute_shortcut_cache_ok dev (action mapping) e1) as Hc.
    pose proof (cancel_pending_single_key_frame (set_key_history history e)) as Hcf.
    pose proof (cancel_pending_single_key_clears (set_key_history history e)) as Hcc.
    cbv zeta in Hf, Hcf, Hcc. fold e1 in Hcf, Hcc.
    destruct Hcf as (? & ? & ? & ? & ? & Hcache & ? & ?).
    destruct (execute_shortcut dev (action mapping) e1) as [[err|b] e2]; fields;
      destruct_and!; split_and!; try congruence;
      intros Hok; apply Hc; by rewrite Hcache.
  - destruct (button_mappings e !! key_type) as [act|] eqn:Hb.
    + rewrite (handle_single_key _ _ _ _ _ _ Hm Hb). fold key_type. fold history.
      pose proof (cancel_pending_single_key_frame (set_key_history history e)) as Hcf.
      pose proof (cancel_pending_single_key_clears (set_key_history history e)) as Hcc.
      cbv zeta in Hcf, Hcc. unfold start_timer. fields.
      destruct Hcf as (? & ? & ? & ? & ? & Hcache & ? & ?).
      destruct_and!; split_and!; try congruence. intros Hok; by rewrite Hcache.
    + rewrite (handle_unmapped _ _ _ _ _ Hm Hb). fields. done.
Qed.

Lemma handle_sequence_match_ok mapping remaining keys :
  cache_ok (_shortcut_cache e) →
  check_sequence_match (sequence_mappings e) history = (Some mapping, remaining) →
  parse_fresh (action mapping) = inr keys →
  Forall (λ c, dev c = true) (press_release keys) →
  fst after = true ∧
  key_history (snd after) = [] ∧
  executions (snd after) = executions e ++ [action mapping] ∧
  kb_calls (snd after) = kb_calls e ++ press_release keys ∧
  pending_single_key (snd after) = None ∧
  pending_timer (snd after) = None ∧
  timers (snd after) = timers_after_cancel e.
Proof.
  intros Hc Hm Hp Hdev. unfold after.
  rewrite (handle_sequence_match _ _ _ _ _ _ Hm). fold key_type. fold history.
  pose proof (cancel_pending_single_key_frame (set_key_history history e)) as Hcf.
  pose proof (cancel_pending_single_key_clears (set_key_history history e)) as Hcc.
  cbv zeta in Hcf, Hcc.
  destruct Hcf as (_ & _ & _ & _ & _ & Hcache & Hkb & Hlog).
  destruct Hcc as (Hps & Hpt & Hts).
  rewrite (execute_shortcut_ok _ _ _ keys); [|by rewrite Hcache|done|done].
  unfold executions. fields.
  rewrite Hkb, Hlog, Hps, Hpt, Hts, !omap_app. simpl. by rewrite !app_nil_r.
Qed.

Lemma handle_sequence_match_failed mapping remaining err :
  check_sequence_match (sequence_mappings e) history = (Some mapping, remaining) →
  fst (execute_shortcut dev (action mapping)
         (cancel_pending_single_key (set_key_history history e))) = inl err →
  fst after = false ∧
  key_history (snd after) = history ∧
  executions (snd after) = executions e.
Proof.
  intros Hm Hx. unfold after.
  rewrite (handle_sequence_match _ _ _ _ _ _ Hm). fold key_type. fold history.
  set (e1 := cancel_pending_single_key (set_key_history history e)) in *.
  pose proof (execute_shortcut_frame dev (action mapping) e1) as Hf.
  pose proof (execute_shortcut_executions dev (action mapping) e1) as He.
  pose proof (cancel_pending_single_key_frame (set_key_history history e)) as Hcf.
  cbv zeta in Hf, Hcf. fold e1 in Hcf.
  destruct (execute_shortcut dev (action mapping) e1) as [[err'|b] e2];
    cbn [fst snd] in Hx, Hf, He; [|discriminate].
  cbn [fst snd]. rewrite executions_log, app_nil_r, He, app_nil_r. fields.
  destruct Hf as (_ & _ & _ & _ & Hh2 & _). destruct Hcf as (_ & _ & _ & _ & Hh1 & _ & _ & Hl1).
  split_and!; [done|congruence|]. unfold executions. by rewrite Hl1.
Qed.

Lemma handle_single_key_effect remaining act :
  check_sequence_match (sequence_mappings e) history = (None, remaining) →
  button_mappings e !! key_type = Some act →
  fst after = true ∧
  key_history (snd after) = history ∧
  executions (snd after) = executions e ∧
  kb_calls (snd after) = kb_calls e ∧
  pending_single_key (snd after) = None ∧
  pending_timer (snd after) = None ∧
  timers (snd after) =
    timers_after_cancel e ++ [Waiting (current_time + SINGLE_KEY_DELAY)].
Proof.
  intros Hm Hb. unfold after.
  rewrite (handle_single_key _ _ _ _ _ _ Hm Hb). fold key_type. fold history.
  pose proof (cancel_pending_single_key_frame (set_key_history history e)) as Hcf.
  pose proof (cancel_pending_single_key_clears (set_key_history history e)) as Hcc.
  cbv zeta in Hcf, Hcc.
  destruct Hcf as (_ & _ & _ & _ & Hh1 & _ & Hkb & Hlog).
  destruct Hcc as (Hps & Hpt & Hts).
  unfold start_timer, executions. fields.
  rewrite Hh1, Hkb, Hlog, Hps, Hpt, Hts, omap_app. simpl. by rewrite app_nil_r.
Qed.

Lemma handle_unmapped_effect remaining :
  check_sequence_match (sequence_mappings e) history = (None, remaining) →
  button_mappings e !! key_type = None →
  fst after = false ∧
  key_history (snd after) = history ∧
  executions (snd after) = executions e ∧
  kb_calls (snd after) = kb_calls e ∧
  pending_single_key (snd after) = pending_single_key e ∧
  pending_timer (snd after) = pending_timer e ∧
  timers (snd after) = timers e.
Proof.
  intros Hm Hb. unfold after. by rewrite (handle_unmapped _ _ _ _ _ Hm Hb).
Qed.

End Effects.

(** ** Loading the fixtures *)

Lemma parse_fresh_nonempty shortcut keys :
  parse_fresh shortcut = inr keys → shortcut ≠ EmptyString.
Proof. intros H ->. vm_compute in H. discriminate. Qed.

Lemma load_button_sequence bm sm key_type rest act :
  act ≠ EmptyString →
  load_button (bm, sm) (sequence_button (key_type :: rest) act) =
    (bm, sm ++ [{| sequence := key_type :: rest; action := act; name := EmptyString |}]).
Proof. intros H. unfold load_button. simpl. by rewrite bool_decide_eq_false_2. Qed.

Lemma load_button_single bm sm key_type act :
  act ≠ EmptyString → key_type ≠ EmptyString →
  load_button (bm, sm) (single_button key_type act) = (<[key_type := act]> bm, sm).
Proof. intros H H'. unfold load_button. simpl. by rewrite !bool_decide_eq_false_2. Qed.

Lemma record_event_first key_type now : record_event key_type now [] = [(key_type, now)].
Proof. unfold record_event. by rewrite prune_snoc. Qed.

Lemma record_event_second key_type now key_type' now' :
  (now - SEQUENCE_TIMEOUT <= now')%Q →
  record_event key_type now [(key_type', now')] = [(key_type', now'); (key_type, now)].
Proof.
  intros H. unfold record_event. rewrite prune_snoc. simpl.
  by rewrite (proj2 (Qltb_ge _ _)).
Qed.

(** ** The timer thread *)

(** With no pending key recorded, a timer that wakes up does nothing
    but mark itself fired. *)
Lemma timer_elapse_idle dev id now e :
  pending_single_key e = None →
  let e' := timer_elapse dev id now e in
  executions e' = executions e ∧ kb_calls e' = kb_calls e ∧
  key_history e' = key_history e ∧
  pending_single_key e' = None ∧ pending_timer e' = pending_timer e.
Proof.
  intros H. unfold timer_elapse.
  destruct (timers e !! id) as [[deadline| |]|]; try done.
  destruct (Qle_bool deadline now); [|done].
  unfold execute_pending_single_key. fields. by rewrite H.
Qed.

(** A timer that was cancelled, or has fired, does nothing at all. *)
Lemma timer_elapse_not_waiting dev id now e :
  (∀ deadline, timers e !! id ≠ Some (Waiting deadline)) →
  timer_elapse dev id now e = e.
Proof.
  intros H. unfold timer_elapse.
  destruct (timers e !! id) as [[deadline| |]|] eqn:E; try done.
  by destruct (H deadline).
Qed.

Lemma run_elapse_idle dev evs : ∀ e,
  Forall is_elapse evs →
  pending_single_key e = None →
  executions (run dev evs e) = executions e ∧ kb_calls (run dev evs e) = kb_calls e ∧
  key_history (run dev evs e) = key_history e ∧
  pending_single_key (run dev evs e) = None.
Proof.
  induction evs as [|ev rest IH]; intros e HF Hp; [done|].
  apply Forall_cons in HF as [Hev HF]. destruct ev; try done. simpl.
  destruct (timer_elapse_idle dev timer now e Hp) as (Hx & Hk & Hh & Hp' & _).
  destruct (IH _ HF Hp') as (? & ? & ? & ?). split_and!; congruence.
Qed.

(** A sequence match cancels whatever the engine has recorded as
    pending, whether or not the shortcut then executes. *)
Lemma handle_sequence_match_cancels dev button_number current_time e mapping remaining :
  check_sequence_match (sequence_mappings e)
    (record_event (key_type_of button_number) current_time (key_history e)) =
    (Some mapping, remaining) →
  let e' := snd (handle_mouse_button dev button_number current_time e) in
  pending_single_key e' = None ∧ pending_timer e' = None ∧
  timers e' = timers_after_cancel e.
Proof.
  intros Hm. rewrite (handle_sequence_match _ _ _ _ _ _ Hm).
  set (recorded := set_key_history _ e).
  pose proof (execute_shortcut_frame dev (action mapping)
                (cancel_pending_single_key recorded)) as Hf.
  pose proof (cancel_pending_single_key_clears recorded) as (Hps & Hpt & Hts).
  cbv zeta in Hf. destruct Hf as (_ & _ & _ & _ & _ & Hps' & Hpt' & Hts').
  destruct (execute_shortcut dev (action mapping) _) as [[err|b] e2]; fields;
    rewrite Hps', Hpt', Hts', Hps, Hpt, Hts; done.
Qed.

(** No run of the engine ever records a pending key or a pending
    timer: the handler is the only place that creates them, and it
    keeps them in local names. *)
Lemma pending_never_recorded dev evs : ∀ e,
  pending_single_key e = None → pending_timer e = None →
  pending_single_key (run dev evs e) = None ∧ pending_timer (run dev evs e) = None.
Proof.
  induction evs as [|ev rest IH]; intros e Hp Ht; [done|]. simpl. apply IH.
  - destruct ev; simpl.
    + by apply handle_mouse_button_frame.
    + by apply timer_elapse_idle.
    + unfold start_listener. destruct (is_listening e); [done|]. fields.
      by destruct fetched; unfold load_mappings;
        [|destruct (foldl load_button (∅, []) buttons)].
    + unfold stop_listener. destruct (is_listening e); [|done]. cbn [negb]. fields.
      apply cancel_pending_single_key_clears.
    + by destruct fetched; unfold load_mappings;
        [|destruct (foldl load_button (∅, []) buttons)].
  - destruct ev; simpl.
    + destruct (check_sequence_match (sequence_mappings e)
                  (record_event (key_type_of button_number) now (key_history e)))
        as [[mapping|] remaining] eqn:Hm.
      * by apply (handle_sequence_match_cancels dev _ _ _ _ _ Hm).
      * destruct (button_mappings e !! key_type_of button_number) as [act|] eqn:Hb.
        -- by apply (handle_single_key_effect dev _ _ _ _ _ Hm Hb).
        -- destruct (handle_unmapped_effect dev _ _ _ _ Hm Hb) as (_ & _ & _ & _ & _ & -> & _).
           done.
    + destruct (timer_elapse_idle dev timer now e Hp) as (_ & _ & _ & _ & ->). done.
    + unfold start_listener. destruct (is_listening e); [done|]. fields.
      by destruct fetched; unfold load_mappings;
        [|destruct (foldl load_button (∅, []) buttons)].
    + unfold stop_listener. destruct (is_listening e); [|done]. cbn [negb]. fields.
      apply cancel_pending_single_key_clears.
    + by destruct fetched; unfold load_mappings;
        [|destruct (foldl load_button (∅, []) buttons)].
Qed.

(** ** Scenarios *)

Section LongestMatchScenario.

Variables (dev : KbCall → bool) (A B : string) (ka : list KeyToken) (t0 t1 : Q).
Hypothesis HA : parse_fresh A = inr ka.
Hypothesis Hdev : Forall (λ c, dev c = true) (press_release ka).
Hypothesis HB : B ≠ EmptyString.

Let e0 := load_mappings
    (FetchReturned [sequence_button ["button_0"] A;
                    sequence_button ["button_0"; "button_1"] B]) initial.
Let e1 := snd (handle_mouse_button dev 0 t0 e0).
Let e2 := snd (handle_mouse_button dev 1 t1 e1).

Lemma longest_match_loaded :
  sequence_mappings e0 =
    [{| sequence := ["button_0"; "button_1"]; action := B; name := EmptyString |};
     {| sequence := ["button_0"]; action := A; name := EmptyString |}] ∧
  button_mappings e0 = ∅ ∧ key_history e0 = [] ∧ _shortcut_cache e0 = ∅ ∧
  kb_calls e0 = [] ∧ executions e0 = [].
Proof.
  unfold e0, load_mappings. cbn [foldl].
  rewrite !load_button_sequence by (done || by eapply parse_fresh_nonempty).
  done.
Qed.

Lemma longest_match_first_click :
  sequence_mappings e1 = sequence_mappings e0 ∧ button_mappings e1 = ∅ ∧
  key_history e1 = [] ∧ executions e1 = [A] ∧ kb_calls e1 = press_release ka.
Proof.
  destruct longest_match_loaded as (Hs & Hb & Hh & Hc & Hk & Hx).
  assert (check_sequence_match (sequence_mappings e0)
            (record_event (key_type_of 0) t0 (key_history e0)) =
          (Some {| sequence := ["button_0"]; action := A; name := EmptyString |}, []))
    as Hm.
  { rewrite Hs, Hh. change (key_type_of 0) with "button_0".
    rewrite record_event_first. vm_compute. reflexivity. }
  assert (cache_ok (_shortcut_cache e0)) as Hok
    by (rewrite Hc; apply cache_ok_empty).
  destruct (handle_mouse_button_frame dev 0 t0 e0) as (Hb1 & Hs1 & _).
  destruct (handle_sequence_match_ok dev 0 t0 e0 _ _ ka Hok Hm HA Hdev)
    as (_ & Hh1 & Hx1 & Hk1 & _).
  fold e1 in Hb1, Hs1, Hh1, Hx1, Hk1.
  rewrite Hx in Hx1. rewrite Hk in Hk1. rewrite Hb in Hb1. done.
Qed.

Lemma longest_match_second_click :
  executions e2 = [A] ∧ kb_calls e2 = press_release ka ∧
  key_history e2 = [("button_1", t1)].
Proof.
  destruct longest_match_loaded as (Hs & _).
  destruct longest_match_first_click as (Hs1 & Hb1 & Hh1 & Hx1 & Hk1).
  rewrite Hs in Hs1.
  assert (check_sequence_match (sequence_mappings e1)
            (record_event (key_type_of 1) t1 (key_history e1)) =
          (None, [("button_1", t1)])) as Hm.
  { rewrite Hs1, Hh1. change (key_type_of 1) with "button_1".
    rewrite record_event_first. vm_compute. reflexivity. }
  assert (button_mappings e1 !! key_type_of 1 = None) as Hb
    by (by rewrite Hb1, lookup_empty).
  destruct (handle_unmapped_effect dev 1 t1 e1 _ Hm Hb) as (_ & Hh2 & Hx2 & Hk2 & _).
  fold e2 in Hh2, Hx2, Hk2. rewrite Hh1 in Hh2.
  change (key_type_of 1) with "button_1" in Hh2. rewrite record_event_first in Hh2.
  split_and!; congruence.
Qed.

End LongestMatchScenario.

Section ComposeScenario.

Variables (dev : KbCall → bool) (C D : string) (kd : list KeyToken) (t0 t1 : Q).
Hypothesis HC : C ≠ EmptyString.
Hypothesis HD : parse_fresh D = inr kd.
Hypothesis Hdev : Forall (λ c, dev c = true) (press_release kd).
Hypothesis Hsoon : (t1 < t0 + SINGLE_KEY_DELAY)%Q.

Let e0 := load_mappings
    (FetchReturned [single_button "button_2" C;
                    sequence_button ["button_2"; "button_3"] D]) initial.
Let e1 := snd (handle_mouse_button dev 2 t0 e0).
Let e2 := snd (handle_mouse_button dev 3 t1 e1).

Lemma compose_loaded :
  sequence_mappings e0 =
    [{| sequence := ["button_2"; "button_3"]; action := D; name := EmptyString |}] ∧
  button_mappings e0 = {[ "button_2" := C ]} ∧ key_history e0 = [] ∧
  _shortcut_cache e0 = ∅ ∧ kb_calls e0 = [] ∧ executions e0 = [] ∧
  pending_single_key e0 = None ∧ pending_timer e0 = None ∧ timers e0 = [].
Proof.
  unfold e0, load_mappings. cbn [foldl].
  rewrite load_button_single by done.
  rewrite load_button_sequence by (by eapply parse_fresh_nonempty).
  done.
Qed.

Lemma compose_first_click :
  sequence_mappings e1 = sequence_mappings e0 ∧
  button_mappings e1 = button_mappings e0 ∧
  cache_ok (_shortcut_cache e1) ∧
  key_history e1 = [("button_2", t0)] ∧ executions e1 = [] ∧ kb_calls e1 = [] ∧
  pending_single_key e1 = None ∧ pending_timer e1 = None ∧
  timers e1 = [Waiting (t0 + SINGLE_KEY_DELAY)].
Proof.
  destruct compose_loaded as (Hs & Hb & Hh & Hc & Hk & Hx & Hps & Hpt & Hts).
  assert (check_sequence_match (sequence_mappings e0)
            (record_event (key_type_of 2) t0 (key_history e0)) =
          (None, [("button_2", t0)])) as Hm.
  { rewrite Hs, Hh. change (key_type_of 2) with "button_2".
    rewrite record_event_first. vm_compute. reflexivity. }
  assert (button_mappings e0 !! key_type_of 2 = Some C) as Hlk
    by (rewrite Hb; apply lookup_singleton_eq).
  assert (cache_ok (_shortcut_cache e0)) as Hok
    by (rewrite Hc; apply cache_ok_empty).
  destruct (handle_mouse_button_frame dev 2 t0 e0) as (Hb1 & Hs1 & _ & _ & Hc1 & _).
  destruct (handle_single_key_effect dev 2 t0 e0 _ _ Hm Hlk)
    as (_ & Hh1 & Hx1 & Hk1 & Hps1 & Hpt1 & Hts1).
  fold e1 in Hb1, Hs1, Hc1, Hh1, Hx1, Hk1, Hps1, Hpt1, Hts1.
  unfold timers_after_cancel in Hts1. rewrite Hpt, Hts in Hts1.
  rewrite Hh in Hh1. change (key_type_of 2) with "button_2" in Hh1.
  rewrite record_event_first in Hh1.
  split_and!; try done; try congruence. by apply Hc1.
Qed.

Lemma compose_second_click :
  executions e2 = [D] ∧ kb_calls e2 = press_release kd ∧ key_history e2 = [] ∧
  pending_single_key e2 = None ∧ pending_timer e2 = None ∧
  timers e2 = [Waiting (t0 + SINGLE_KEY_DELAY)].
Proof.
  destruct compose_loaded as (Hs & _).
  destruct compose_first_click
    as (Hs1 & Hb1 & Hc1 & Hh1 & Hx1 & Hk1 & Hps1 & Hpt1 & Hts1).
  rewrite Hs in Hs1.
  assert (check_sequence_match (sequence_mappings e1)
            (record_event (key_type_of 3) t1 (key_history e1)) =
          (Some {| sequence := ["button_2"; "button_3"]; action := D;
                   name := EmptyString |}, [])) as Hm.
  { rewrite Hs1, Hh1. change (key_type_of 3) with "button_3".
    rewrite record_event_second
      by (unfold SEQUENCE_TIMEOUT, SINGLE_KEY_DELAY in *; lra).
    vm_compute. reflexivity. }
  destruct (handle_sequence_match_ok dev 3 t1 e1 _ _ kd Hc1 Hm HD Hdev)
    as (_ & Hh2 & Hx2 & Hk2 & Hps2 & Hpt2 & Hts2).
  fold e2 in Hh2, Hx2, Hk2, Hps2, Hpt2, Hts2.
  unfold timers_after_cancel in Hts2. rewrite Hpt1, Hts1 in Hts2.
  rewrite Hx1 in Hx2. rewrite Hk1 in Hk2. done.
Qed.

End ComposeScenario.

Section RepeatScenario.

Variables (dev : KbCall → bool) (C : string) (t0 t1 : Q).
Hypothesis HC : C ≠ EmptyString.

Let e0 := load_mappings (FetchReturned [single_button "button_2" C]) initial.
Let e1 := snd (handle_mouse_button dev 2 t0 e0).
Let e2 := snd (handle_mouse_button dev 2 t1 e1).

(** Two releases of a mapped button: the second leaves the first
    one's timer running. *)
Lemma repeat_two_timers :
  timers e2 = [Waiting (t0 + SINGLE_KEY_DELAY); Waiting (t1 + SINGLE_KEY_DELAY)] ∧
  pending_single_key e2 = None ∧ pending_timer e2 = None ∧
  executions e2 = [] ∧ kb_calls e2 = [].
Proof.
  assert (sequence_mappings e0 = [] ∧ button_mappings e0 = {[ "button_2" := C ]} ∧
          key_history e0 = [] ∧ kb_calls e0 = [] ∧ executions e0 = [] ∧
          pending_timer e0 = None ∧ timers e0 = [])
    as (Hs & Hb & Hh & Hk & Hx & Hpt & Hts).
  { unfold e0, load_mappings. cbn [foldl]. by rewrite load_button_single. }
  assert (∀ h, check_sequence_match [] h = (None, last_n 20 h)) as Hnone by done.
  assert (button_mappings e0 !! key_type_of 2 = Some C) as Hlk
    by (rewrite Hb; apply lookup_singleton_eq).
  destruct (handle_mouse_button_frame dev 2 t0 e0) as (Hb1 & Hs1 & _).
  assert (check_sequence_match (sequence_mappings e0)
            (record_event (key_type_of 2) t0 (key_history e0)) =
          (None, last_n 20 (record_event (key_type_of 2) t0 (key_history e0))))
    as Hm0 by (rewrite Hs; apply Hnone).
  destruct (handle_single_key_effect dev 2 t0 e0 _ _ Hm0 Hlk)
    as (_ & _ & Hx1 & Hk1 & _ & Hpt1 & Hts1).
  fold e1 in Hb1, Hs1, Hx1, Hk1, Hpt1, Hts1.
  unfold timers_after_cancel in Hts1. rewrite Hpt, Hts in Hts1.
  assert (check_sequence_match (sequence_mappings e1)
            (record_event (key_type_of 2) t1 (key_history e1)) =
          (None, last_n 20 (record_event (key_type_of 2) t1 (key_history e1))))
    as Hm1 by (rewrite Hs1, Hs; apply Hnone).
  assert (button_mappings e1 !! key_type_of 2 = Some C) as Hlk1 by congruence.
  destruct (handle_single_key_effect dev 2 t1 e1 _ _ Hm1 Hlk1)
    as (_ & _ & Hx2 & Hk2 & Hps2 & Hpt2 & Hts2).
  fold e2 in Hx2, Hk2, Hps2, Hpt2, Hts2.
  unfold timers_after_cancel in Hts2. rewrite Hpt1, Hts1 in Hts2.
  split_and!; try done; congruence.
Qed.

End RepeatScenario.

(** ** The history along a run *)

Lemma handle_mouse_button_history dev button_number current_time e :
  let after := handle_mouse_button dev button_number current_time e in
  key_history (snd after) = [] ∨
  key_history (snd after) =
    record_event (key_type_of button_number) current_time (key_history e).
Proof.
  cbv zeta.
  destruct (check_sequence_match (sequence_mappings e)
              (record_event (key_type_of button_number) current_time (key_history e)))
    as [[mapping|] remaining] eqn:Hm.
  - pose proof (sequence_match_history_cases := handle_sequence_match dev _ _ _ _ _ Hm).
    set (e1 := cancel_pending_single_key _) in *.
    destruct (fst (execute_shortcut dev (action mapping) e1)) as [err|b] eqn:Hx.
    + right. by apply (handle_sequence_match_failed dev _ _ _ _ _ err Hm).
    + left. rewrite sequence_match_history_cases.
      by destruct (execute_shortcut dev (action mapping) e1) as [[err|b'] e2];
        [discriminate|].
  - destruct (button_mappings e !! key_type_of button_number) as [act|] eqn:Hb.
    + right. by apply (handle_single_key_effect dev _ _ _ _ _ Hm Hb).
    + right. by apply (handle_unmapped_effect dev _ _ _ _ Hm Hb).
Qed.

Lemma timer_elapse_history dev id now e :
  key_history (timer_elapse dev id now e) = key_history e.
Proof.
  unfold timer_elapse.
  destruct (timers e !! id) as [[deadline| |]|]; try done.
  destruct (Qle_bool deadline now); [|done].
  unfold execute_pending_single_key. fields.
  destruct (pending_single_key e) as [[[key_type act] timestamp]|]; [|done].
  set (e1 := set_pending_timer None _).
  pose proof (execute_shortcut_frame dev act e1) as Hf. cbv zeta in Hf.
  destruct Hf as (_ & _ & _ & _ & Hh & _).
  by destruct (execute_shortcut dev act e1) as [[err|b] e2]; fields.
Qed.

(** With a clock that never runs backwards the history stays in time
    order, from the empty history on. *)
Lemma run_history_wf dev evs : ∀ prev e,
  history_wf prev (key_history e) →
  chronological prev evs →
  ∃ last, (prev <= last)%Q ∧ history_wf last (key_history (run dev evs e)).
Proof.
  assert (∀ t, history_wf t []) as Hnil by (intros; split; constructor).
  induction evs as [|ev rest IH]; intros prev e Hwf Hch.
  - exists prev. split; [lra|done].
  - destruct ev as [button_number now|id now|fetched| |fetched]; simpl in Hch |- *.
    + destruct Hch as [Hle Hch].
      destruct (IH now (snd (handle_mouse_button dev button_number now e)))
        as (last & Hlast & Hwf'); [|done|exists last; split; [lra|done]].
      destruct (handle_mouse_button_history dev button_number now e) as [->| ->];
        [done|]. by apply (record_event_wf prev).
    + apply IH; [|done]. by rewrite timer_elapse_history.
    + apply IH; [|done]. unfold start_listener. destruct (is_listening e); [done|].
      fields. by destruct fetched; unfold load_mappings;
        [|destruct (foldl load_button (∅, []) buttons)].
    + apply IH; [|done]. unfold stop_listener. destruct (is_listening e); [|done].
      cbn [negb]. by fields.
    + apply IH; [|done]. by destruct fetched; unfold load_mappings;
        [|destruct (foldl load_button (∅, []) buttons)].
Qed.

(** ** Worked inputs *)

Example parse_ctrl_shift_c :
  parse_fresh "Ctrl + Shift+c" = inr [Named Key_ctrl; Named Key_shift; Char "c"].
Proof. vm_compute. reflexivity. Qed.

Example parse_f20 : parse_fresh "f20" = inr [Named (Key_f 20)].
Proof. vm_compute. reflexivity. Qed.

Example parse_f21 : parse_fresh "f21" = inl (InvalidFunctionKey "f21").
Proof. vm_compute. reflexivity. Qed.

Example parse_foo : parse_fresh "foo" = inl (InvalidFunctionKey "foo").
Proof. vm_compute. reflexivity. Qed.

Example parse_bar : parse_fresh "ctrl+bar" = inl (InvalidKey "bar").
Proof. vm_compute. reflexivity. Qed.

Example parse_empty : parse_fresh "" = inl EmptyShortcut.
Proof. vm_compute. reflexivity. Qed.

(** * The claims *)

(** ** Shortcut parser *)




(** ** Shortcut executors *)

(** C7.  When the parser gives the token list [k1, ..., kn] for a
    shortcut and the keyboard takes the calls, [execute_shortcut] issues
    the presses of [k1, ..., kn] in that order, then the releases of
    [kn, ..., k1], and nothing else; a keyboard that refuses a call
    cuts that list short. *)
Theorem execute_shortcut_press_release_order dev shortcut e keys :
  fst (_parse_shortcut shortcut (_shortcut_cache e)) = inr keys →
  (∃ issued, issued `prefix_of` (Press <$> keys) ++ (Release <$> reverse keys) ∧
     kb_calls (snd (execute_shortcut dev shortcut e)) = kb_calls e ++ issued) ∧
  (Forall (λ k, dev (Press k) = true ∧ dev (Release k) = true) keys →
     fst (execute_shortcut dev shortcut e) = inr true ∧
     kb_calls (snd (execute_shortcut dev shortcut e)) =
       kb_calls e ++ (Press <$> keys) ++ (Release <$> reverse keys)).
Proof.
  intros Hp. pose proof (execute_shortcut_cases dev shortcut e) as H.
  cbv zeta in H. rewrite Hp in H. fold (press_release keys). split.
  - destruct H as [[_ ->]|(c & issued & _ & Hpre & ->)]; fields; eauto.
  - intros Hdev. unfold execute_shortcut.
    destruct (_parse_shortcut shortcut (_shortcut_cache e)) as [r cache].
    simpl in Hp. subst r. fields.
    rewrite (issue_accepted dev Press)
      by (eapply Forall_impl; [exact Hdev|]; by intros k [? _]).
    rewrite (issue_accepted dev Release)
      by (apply Forall_reverse; eapply Forall_impl; [exact Hdev|]; by intros k [_ ?]).
    fields. unfold press_release. by rewrite <- app_assoc.
Qed.

Lemma execute_shortcut_press_release_order_witness :
  fst (_parse_shortcut "ctrl+shift+c" (_shortcut_cache initial)) =
    inr [Named Key_ctrl; Named Key_shift; Char "c"] ∧
  Forall (λ k, accepts_all (Press k) = true ∧ accepts_all (Release k) = true)
    [Named Key_ctrl; Named Key_shift; Char "c"] ∧
  kb_calls (snd (execute_shortcut accepts_all "ctrl+shift+c" initial)) =
    [Press (Named Key_ctrl); Press (Named Key_shift); Press (Char "c");
     Release (Char "c"); Release (Named Key_shift); Release (Named Key_ctrl)].
Proof.
  assert (fst (_parse_shortcut "ctrl+shift+c" (_shortcut_cache initial)) =
            inr [Named Key_ctrl; Named Key_shift; Char "c"]) as Hp
    by (vm_compute; reflexivity).
  assert (Forall (λ k, accepts_all (Press k) = true ∧ accepts_all (Release k) = true)
            [Named Key_ctrl; Named Key_shift; Char "c"]) as Hdev
    by (repeat constructor).
  split; [exact Hp|]. split; [exact Hdev|].
  exact (proj2 (proj2 (execute_shortcut_press_release_order
                         accepts_all "ctrl+shift+c" initial _ Hp) Hdev)).
Defined.

(** C8.  On every shortcut string, engine and keyboard, the fast
    executor and the normal one parse alike (same cache afterwards) and
    issue exactly the same keyboard calls; where the normal one returns
    [True] the fast one returns [True], and where the normal one raises
    the fast one returns [False].  Neither touches the rest of the
    engine, and the fast one writes no log entry. *)
Theorem execute_shortcut_fast_same_calls dev shortcut e :
  let fast := execute_shortcut_fast dev shortcut e in
  let normal := execute_shortcut dev shortcut e in
  kb_calls (snd fast) = kb_calls (snd normal) ∧
  _shortcut_cache (snd fast) = _shortcut_cache (snd normal) ∧
  fst fast = match fst normal with inr _ => true | inl _ => false end ∧
  fst normal ≠ inr false ∧
  key_history (snd fast) = key_history (snd normal) ∧
  pending_single_key (snd fast) = pending_single_key (snd normal) ∧
  pending_timer (snd fast) = pending_timer (snd normal) ∧
  timers (snd fast) = timers (snd normal) ∧
  button_mappings (snd fast) = button_mappings (snd normal) ∧
  sequence_mappings (snd fast) = sequence_mappings (snd normal) ∧
  is_listening (snd fast) = is_listening (snd normal) ∧
  app_log (snd fast) = app_log e.
Proof.
  unfold execute_shortcut_fast, execute_shortcut.
  destruct (_parse_shortcut shortcut (_shortcut_cache e)) as [[err|keys] cache];
    [by fields|].
  fields. destruct (issue dev Press keys (kb_calls e)) as [[c|] calls]; [by fields|].
  destruct (issue dev Release (reverse keys) calls) as [[c|] calls']; by fields.
Qed.

(** ** Listener lifecycle *)



(** ** Mapping table *)

(** C10.  When fetching the records raises, [load_mappings] leaves the
    single-key map and the sequence list empty, whatever they held
    before; the rest of the engine keeps its state.  A button event
    that follows finds nothing to match: it is refused, executes
    nothing and starts no timer. *)
Theorem load_mappings_failure_empties_tables dev button_number now e :
  let e' := load_mappings FetchRaised e in
  let after := handle_mouse_button dev button_number now e' in
  button_mappings e' = ∅ ∧
  sequence_mappings e' = [] ∧
  key_history e' = key_history e ∧
  pending_single_key e' = pending_single_key e ∧
  pending_timer e' = pending_timer e ∧
  timers e' = timers e ∧
  is_listening e' = is_listening e ∧
  _shortcut_cache e' = _shortcut_cache e ∧
  app_log e' = app_log e ++ [ErrorLoadFailed] ∧
  fst after = false ∧
  executions (snd after) = executions e ∧
  kb_calls (snd after) = kb_calls e ∧
  timers (snd after) = timers e.
Proof.
  intros e' after.
  assert (check_sequence_match (sequence_mappings e')
            (record_event (key_type_of button_number) now (key_history e')) =
          (None, last_n 20 (record_event (key_type_of button_number) now (key_history e'))))
    as Hm by done.
  assert (button_mappings e' !! key_type_of button_number = None) as Hb
    by apply lookup_empty.
  destruct (handle_unmapped_effect dev _ _ _ _ Hm Hb) as (Hr & _ & Hx & Hk & _ & _ & Ht).
  fold after in Hr, Hx, Hk, Ht. split_and!; try done.
  rewrite Hx. unfold e', load_mappings, executions. fields.
  rewrite omap_app. simpl. by rewrite app_nil_r.
Qed.

(** ** Key history *)

(** C5, as the code has it.  Let the clock not run backwards.  After a
    button event is appended at time [now] and the history pruned, no
    entry is older than [now - SEQUENCE_TIMEOUT]; the matcher looks at
    the most recent 20 entries only, while the stored history is pruned
    by time alone; and the entries that a matching sequence is read
    from all lie between [now - SEQUENCE_TIMEOUT] and [now], so two
    button events further apart than [SEQUENCE_TIMEOUT] are never part
    of one match. *)
Theorem history_window_bounded key_type prev now h ms :
  (prev <= now)%Q →
  history_wf prev h →
  let h' := record_event key_type now h in
  let window := last_n 20 h' in
  Forall (fresh now) h' ∧
  history_wf now h' ∧
  length window ≤ 20 ∧
  window `suffix_of` h' ∧
  check_sequence_match ms h' = first_match window ms ∧
  ∀ mapping remaining,
    check_sequence_match ms h' = (Some mapping, remaining) →
    let matched := last_n (length (sequence mapping)) window in
    fst <$> matched = sequence mapping ∧
    matched `suffix_of` h' ∧
    ∀ a b, a ∈ matched → b ∈ matched →
      (now - SEQUENCE_TIMEOUT <= snd a <= now)%Q ∧
      (snd b - snd a <= SEQUENCE_TIMEOUT)%Q.
Proof.
  intros Hle Hwf h' window.
  destruct (record_event_wf _ _ key_type _ Hle Hwf) as [Hwf' Hfresh].
  fold h' in Hwf', Hfresh.
  assert (window `suffix_of` h') as Hsuf by apply last_n_suffix.
  split_and!; try done.
  - unfold window. rewrite last_n_length. lia.
  - intros mapping remaining Hm matched.
    apply first_match_Some in Hm as (pre & post & _ & _ & [Hlen Hkeys] & _).
    fold window in Hlen, Hkeys. fold matched in Hkeys.
    assert (matched `suffix_of` h') as Hsuf'
      by (etrans; [apply last_n_suffix|done]).
    split_and!; try done.
    destruct Hsuf' as [older Holder]. destruct Hwf' as [_ Hle'].
    rewrite Holder in Hfresh, Hle'.
    apply Forall_app in Hfresh as [_ Hfresh]. apply Forall_app in Hle' as [_ Hle'].
    rewrite Forall_forall in Hfresh, Hle'.
    intros a b Ha Hb.
    pose proof (Hfresh a Ha) as Ha1. pose proof (Hle' a Ha) as Ha2.
    pose proof (Hfresh b Hb) as Hb1. pose proof (Hle' b Hb) as Hb2.
    unfold fresh in *. simpl in *. unfold SEQUENCE_TIMEOUT in *. split; lra.
Qed.

Lemma history_window_bounded_witness :
  (0 <= 6 # 10)%Q ∧ history_wf 0 [("button_0", 0%Q)] ∧
  Forall (fresh (6 # 10)) (record_event "button_1" (6 # 10) [("button_0", 0%Q)]) ∧
  record_event "button_1" (6 # 10) [("button_0", 0%Q)] = [("button_1", 6 # 10)].
Proof.
  assert (0 <= 6 # 10)%Q as Hle by (vm_compute; discriminate).
  assert (history_wf 0 [("button_0", 0%Q)]) as Hwf.
  { split; repeat constructor. vm_compute. discriminate. }
  split; [exact Hle|]. split; [exact Hwf|]. split; [|reflexivity].
  exact (proj1 (history_window_bounded "button_1" 0 (6 # 10) _ [] Hle Hwf)).
Defined.

(** C5, as the claim words it, fails twice.  Twenty-five releases of
    an unmapped button at one instant leave twenty-five entries in the
    stored history: only the matcher's view is cut to twenty.  And when
    the clock steps back, pruning from the front stops at a recent
    entry and leaves an older one behind it: with
    [button_1, button_2] -> x loaded and releases stamped 10, 9 and
    10.4, the entry stamped 9 is still there at 10.4, older than
    [10.4 - SEQUENCE_TIMEOUT], and x is executed on two releases 1.4
    seconds apart. *)
Lemma history_exceeds_cap_and_keeps_old_entry :
  let crowded := run accepts_all (replicate 25 (Click 7 0)) initial in
  let e0 := load_mappings
              (FetchReturned [sequence_button ["button_1"; "button_2"] "x"]) initial in
  let e2 := run accepts_all [Click 0 10; Click 1 9] e0 in
  let e3 := run accepts_all [Click 0 10; Click 1 9; Click 2 (104 # 10)] e0 in
  length (key_history crowded) = 25 ∧
  ¬ length (key_history crowded) ≤ 20 ∧
  record_event "button_2" (104 # 10) (key_history e2) =
    [("button_0", 10%Q); ("button_1", 9%Q); ("button_2", 104 # 10)] ∧
  ¬ Forall (fresh (104 # 10)) (record_event "button_2" (104 # 10) (key_history e2)) ∧
  (9 < (104 # 10) - SEQUENCE_TIMEOUT)%Q ∧
  executions e3 = ["x"].
Proof.
  intros crowded e0 e2 e3.
  assert (length (key_history crowded) = 25) as Hlen by (vm_compute; reflexivity).
  assert (record_event "button_2" (104 # 10) (key_history e2) =
            [("button_0", 10%Q); ("button_1", 9%Q); ("button_2", 104 # 10)]) as Hrec
    by (vm_compute; reflexivity).
  assert (9 < (104 # 10) - SEQUENCE_TIMEOUT)%Q as Hold by (vm_compute; reflexivity).
  assert (executions e3 = ["x"]) as Hx by (vm_compute; reflexivity).
  split; [exact Hlen|]. split; [rewrite Hlen; lia|]. split; [exact Hrec|].
  split; [|split; [exact Hold|exact Hx]].
  rewrite Hrec. intros HF.
  apply Forall_cons in HF as [_ HF]. apply Forall_cons in HF as [H9 _].
  unfold fresh in H9. cbn [snd] in H9. apply Qle_not_lt in H9. exact (H9 Hold).
Qed.

(** C4, as the code has it.  When the matcher finds a sequence and its
    shortcut executes, the handler empties the whole key history, not
    only the matched entries, and returns [True]; when the execution
    raises, the handler returns [False] and the history stays as the
    append and the pruning left it. *)
Theorem sequence_match_clears_history_on_success dev button_number current_time e
    mapping remaining :
  let history := record_event (key_type_of button_number) current_time (key_history e) in
  let after := handle_mouse_button dev button_number current_time e in
  check_sequence_match (sequence_mappings e) history = (Some mapping, remaining) →
  match fst (execute_shortcut dev (action mapping)
               (cancel_pending_single_key (set_key_history history e))) with
  | inr _ => fst after = true ∧ key_history (snd after) = []
  | inl _ => fst after = false ∧ key_history (snd after) = history
  end.
Proof.
  intros history after Hm.
  destruct (fst (execute_shortcut dev (action mapping) _)) as [err|b] eqn:Hx.
  - by destruct (handle_sequence_match_failed dev _ _ _ _ _ err Hm Hx) as (? & ? & _).
  - unfold after. rewrite (handle_sequence_match _ _ _ _ _ _ Hm). fold history.
    by destruct (execute_shortcut dev (action mapping) _) as [[err|b'] e2];
      [discriminate|].
Qed.

Lemma sequence_match_clears_history_on_success_witness :
  let e0 := load_mappings (FetchReturned [sequence_button ["button_0"] "a"]) initial in
  check_sequence_match (sequence_mappings e0)
    (record_event (key_type_of 0) 0 (key_history e0)) =
    (Some {| sequence := ["button_0"]; action := "a"; name := "" |}, []) ∧
  fst (handle_mouse_button accepts_all 0 0 e0) = true ∧
  key_history (snd (handle_mouse_button accepts_all 0 0 e0)) = [].
Proof.
  intros e0.
  assert (check_sequence_match (sequence_mappings e0)
            (record_event (key_type_of 0) 0 (key_history e0)) =
          (Some {| sequence := ["button_0"]; action := "a"; name := "" |}, [])) as Hm
    by (vm_compute; reflexivity).
  split; [exact Hm|].
  exact (sequence_match_clears_history_on_success accepts_all 0 0 e0 _ _ Hm).
Defined.

(** C4, as the claim words it, fails: a sequence whose shortcut does not
    parse is matched, and the key history is not emptied. *)
Lemma sequence_match_keeps_history_on_failure :
  let e0 := load_mappings (FetchReturned [sequence_button ["button_0"] "foo"]) initial in
  let after := handle_mouse_button accepts_all 0 0 e0 in
  fst (check_sequence_match (sequence_mappings e0)
         (record_event (key_type_of 0) 0 (key_history e0))) =
    Some {| sequence := ["button_0"]; action := "foo"; name := "" |} ∧
  fst after = false ∧
  key_history (snd after) = [("button_0", 0%Q)] ∧
  key_history (snd after) ≠ [].
Proof. vm_compute. by split_and!. Qed.

(** ** Sequence matcher *)

(** C1, as the code has it.  [check_sequence_match] returns the first
    mapping of the list whose sequence equals, position by position, the
    keys of the trailing slice of the same length of the window (the
    last 20 entries of the history); the loader keeps the list longest
    first, so of the mappings that match one window a longest one is
    returned.  A sequence fires as soon as it matches: with
    [button_0] -> A and [button_0, button_1] -> B loaded, [button_0]
    followed by [button_1] executes A once, on the first event, which
    empties the history; the second event matches nothing and stays in
    the history, and B is not executed. *)
Theorem first_match_wins_longest_first :
  (∀ ms history mapping remaining,
     check_sequence_match ms history = (Some mapping, remaining) ↔
     ∃ pre post,
       ms = pre ++ mapping :: post ∧
       Forall (λ x, ¬ matches_tail (last_n 20 history) (sequence x)) pre ∧
       matches_tail (last_n 20 history) (sequence mapping) ∧
       remaining = take (length (last_n 20 history) - length (sequence mapping))
                     (last_n 20 history)) ∧
  (∀ buttons e history mapping remaining,
     let ms := sequence_mappings (load_mappings (FetchReturned buttons) e) in
     StronglySorted longer_first ms ∧
     (check_sequence_match ms history = (Some mapping, remaining) →
      ∀ m', m' ∈ ms → matches_tail (last_n 20 history) (sequence m') →
        length (sequence m') ≤ length (sequence mapping))) ∧
  (∀ dev A B ka t0 t1,
     parse_fresh A = inr ka →
     Forall (λ c, dev c = true) (press_release ka) →
     B ≠ EmptyString →
     let e0 := load_mappings
                 (FetchReturned [sequence_button ["button_0"] A;
                                 sequence_button ["button_0"; "button_1"] B]) initial in
     sequence <$> sequence_mappings e0 = [["button_0"; "button_1"]; ["button_0"]] ∧
     executions (run dev [Click 0 t0] e0) = [A] ∧
     key_history (run dev [Click 0 t0] e0) = [] ∧
     executions (run dev [Click 0 t0; Click 1 t1] e0) = [A] ∧
     kb_calls (run dev [Click 0 t0; Click 1 t1] e0) = press_release ka ∧
     key_history (run dev [Click 0 t0; Click 1 t1] e0) = [("button_1", t1)]).
Proof.
  split_and!.
  - intros. apply first_match_Some.
  - intros buttons e history mapping remaining ms. split.
    + apply load_mappings_sorted.
    + intros Hm. eapply first_match_longest; [apply load_mappings_sorted|exact Hm].
  - intros dev A B ka t0 t1 HA Hdev HB e0.
    destruct (longest_match_loaded A B ka HA HB) as (Hs & _).
    destruct (longest_match_first_click dev A B ka t0 HA Hdev HB) as (_ & _ & Hh1 & Hx1 & _).
    destruct (longest_match_second_click dev A B ka t0 t1 HA Hdev HB) as (Hx2 & Hk2 & Hh2).
    fold e0 in Hs, Hh1, Hx1, Hx2, Hk2, Hh2.
    split_and!; try done. by rewrite Hs.
Qed.

Lemma first_match_wins_longest_first_witness :
  parse_fresh "a" = inr [Char "a"] ∧
  Forall (λ c, accepts_all c = true) (press_release [Char "a"]) ∧
  "b" ≠ EmptyString ∧
  executions
    (run accepts_all [Click 0 0; Click 1 (1 # 10)]
       (load_mappings
          (FetchReturned [sequence_button ["button_0"] "a";
                          sequence_button ["button_0"; "button_1"] "b"]) initial)) =
    ["a"].
Proof.
  assert (parse_fresh "a" = inr [Char "a"]) as HA by (vm_compute; reflexivity).
  assert (Forall (λ c, accepts_all c = true) (press_release [Char "a"])) as Hdev
    by (repeat constructor).
  assert ("b" ≠ EmptyString) as HB by discriminate.
  split; [exact HA|]. split; [exact Hdev|]. split; [exact HB|].
  destruct first_match_wins_longest_first as (_ & _ & H).
  destruct (H accepts_all "a" "b" _ 0%Q (1 # 10)%Q HA Hdev HB) as (_ & _ & _ & Hx & _).
  exact Hx.
Defined.

(** C1, as the claim words it, fails: with [button_0] -> a and
    [button_0, button_1] -> b loaded, [button_0] and, a tenth of a
    second later, [button_1] execute a, not b, and leave an entry in the
    history. *)
Lemma longest_match_scenario_executes_short_sequence :
  let e0 := load_mappings
              (FetchReturned [sequence_button ["button_0"] "a";
                              sequence_button ["button_0"; "button_1"] "b"]) initial in
  let e2 := run accepts_all [Click 0 0; Click 1 (1 # 10)] e0 in
  executions e2 = ["a"] ∧
  key_history e2 = [("button_1", 1 # 10)] ∧
  ¬ (executions e2 = ["b"] ∧ key_history e2 = []).
Proof. vm_compute. split_and!; [done|done|]. by intros [? _]. Qed.

(** ** Deferred single key *)

(** C2, on the code.  With [button_2] -> c and [button_2, button_3] -> d
    loaded, [button_2] and, a tenth of a second later, [button_3]
    execute d once, but the match cancels nothing: the timer started
    for c is not on the engine's record (the handler keeps it in a
    local name), so [cancel_pending_single_key] finds no timer and the
    timer is still waiting after the match.  It wakes up later and
    executes nothing only because the pending key is not on record
    either; for the same reason c is not executed when [button_3]
    comes after the delay has passed. *)
Theorem sequence_match_leaves_single_key_timer_waiting :
  let e0 := load_mappings
              (FetchReturned [single_button "button_2" "c";
                              sequence_button ["button_2"; "button_3"] "d"]) initial in
  let e1 := run accepts_all [Click 2 0] e0 in
  let e2 := run accepts_all [Click 2 0; Click 3 (1 # 10)] e0 in
  let e3 := run accepts_all [Elapse 0 (3 # 10)] e2 in
  timers e1 = [Waiting (0 + SINGLE_KEY_DELAY)] ∧
  pending_single_key e1 = None ∧ pending_timer e1 = None ∧
  executions e2 = ["d"] ∧
  timers e2 = [Waiting (0 + SINGLE_KEY_DELAY)] ∧
  length (live_timers e2) = 1 ∧
  timers e3 = [Fired] ∧ executions e3 = ["d"] ∧
  executions (run accepts_all [Click 2 0; Elapse 0 (3 # 10); Click 3 (4 # 10)] e0) = ["d"].
Proof. vm_compute. repeat split. Qed.

(** C3, on the code.  Two releases of a mapped button a tenth of a
    second apart leave two timers waiting at once: the handler's
    [pending_single_key] and [pending_timer] are local names, the first
    timer is not on the engine's record when the second release calls
    [cancel_pending_single_key], and so it is not cancelled.  Both
    timers later wake up, find no pending key, and execute nothing. *)
Theorem second_release_leaves_first_timer_waiting :
  let e0 := load_mappings (FetchReturned [single_button "button_2" "c"]) initial in
  let e2 := run accepts_all [Click 2 0; Click 2 (1 # 10)] e0 in
  let e4 := run accepts_all [Elapse 0 (3 # 10); Elapse 1 (4 # 10)] e2 in
  timers e2 = [Waiting (0 + SINGLE_KEY_DELAY); Waiting ((1 # 10) + SINGLE_KEY_DELAY)] ∧
  length (live_timers e2) = 2 ∧
  pending_single_key e2 = None ∧ pending_timer e2 = None ∧
  timers e4 = [Fired; Fired] ∧ executions e4 = [] ∧ kb_calls e4 = [].
Proof. vm_compute. by split_and!. Qed.

(** * Further properties *)

(** ** The parser's cache *)

(** X1.  Whatever the cache holds, a second [_parse_shortcut] of the
    same string returns what the first returned and leaves the cache as
    the first left it; a successful parse is then stored under that
    string, a failed one stores nothing, and no other entry changes. *)
Theorem parse_shortcut_memoized shortcut cache other :
  let first := _parse_shortcut shortcut cache in
  let second := _parse_shortcut shortcut (snd first) in
  fst second = fst first ∧
  snd second = snd first ∧
  snd first !! shortcut =
    match fst first with inr keys => Some keys | inl _ => None end ∧
  snd first =
    match fst first with inr keys => <[shortcut := keys]> cache | inl _ => cache end ∧
  (if bool_decide (other = shortcut) then True
   else snd first !! other = cache !! other).
Proof.
  unfold _parse_shortcut.
  destruct (cache !! shortcut) as [keys|] eqn:Hl; cbn [fst snd].
  - rewrite Hl. cbn [fst snd]. split_and!; try done.
    + by rewrite insert_id.
    + by case_bool_decide.
  - destruct (parse_fresh shortcut) as [err|keys] eqn:Hp; cbn [fst snd].
    + rewrite ?Hl, ?Hp. split_and!; try done. by case_bool_decide.
    + rewrite lookup_insert_eq. cbn [fst snd]. split_and!; try done.
      case_bool_decide; [done|]. by rewrite lookup_insert_ne.
Qed.

(** ** The executors on failure *)

Lemma issue_refused dev call keys : ∀ calls c calls',
  issue dev call keys calls = (Some c, calls') →
  ∃ done k rest,
    c = call k ∧ keys = done ++ k :: rest ∧ dev (call k) = false ∧
    Forall (λ k', dev (call k') = true) done ∧
    calls' = calls ++ (call <$> done) ++ [call k].
Proof.
  induction keys as [|k0 keys IH]; intros calls c calls'; simpl; [discriminate|].
  destruct (dev (call k0)) eqn:Hk.
  - intros H. apply IH in H as (done & k & rest & -> & -> & Hk' & HF & ->).
    exists (k0 :: done), k, rest. split_and!; try done.
    + by constructor.
    + by rewrite <- app_assoc.
  - intros [= <- <-]. exists [], k0, keys. by split_and!.
Qed.

(** X2.  A shortcut that does not parse never reaches the keyboard:
    [execute_shortcut] raises with the parser's error,
    [execute_shortcut_fast] returns [False], and neither issues a call
    nor stores anything in the cache. *)
Theorem invalid_shortcut_issues_no_call dev shortcut e err :
  fst (_parse_shortcut shortcut (_shortcut_cache e)) = inl err →
  fst (execute_shortcut dev shortcut e) = inl (ParseFailed err) ∧
  kb_calls (snd (execute_shortcut dev shortcut e)) = kb_calls e ∧
  _shortcut_cache (snd (execute_shortcut dev shortcut e)) = _shortcut_cache e ∧
  executions (snd (execute_shortcut dev shortcut e)) = executions e ∧
  execute_shortcut_fast dev shortcut e = (false, e).
Proof.
  intros Hp. unfold execute_shortcut, execute_shortcut_fast, executions.
  destruct (_parse_shortcut shortcut (_shortcut_cache e)) as [r cache].
  simpl in Hp. subst r. fields. rewrite omap_app. simpl. by rewrite app_nil_r.
Qed.

Lemma invalid_shortcut_issues_no_call_witness :
  fst (_parse_shortcut "ctrl+foo" (_shortcut_cache initial)) = inl (InvalidFunctionKey "foo") ∧
  kb_calls (snd (execute_shortcut accepts_all "ctrl+foo" initial)) = [] ∧
  execute_shortcut_fast accepts_all "ctrl+foo" initial = (false, initial).
Proof.
  assert (fst (_parse_shortcut "ctrl+foo" (_shortcut_cache initial)) =
            inl (InvalidFunctionKey "foo")) as Hp by (vm_compute; reflexivity).
  destruct (invalid_shortcut_issues_no_call accepts_all "ctrl+foo" initial _ Hp)
    as (_ & Hk & _ & _ & Hf).
  split; [exact Hp|]. split; [exact Hk|exact Hf].
Defined.

(** X3.  When the keyboard refuses a call, [execute_shortcut] stops
    there and raises: after a refused press no release is issued, so
    the keys pressed before it stay down; after a refused release the
    keys not yet released stay down.  Nothing is issued after the
    refused call. *)
Theorem device_failure_leaves_keys_down dev shortcut e c :
  fst (execute_shortcut dev shortcut e) = inl (DeviceFailed c) →
  ∃ keys done k rest,
    fst (_parse_shortcut shortcut (_shortcut_cache e)) = inr keys ∧
    dev c = false ∧
    ((c = Press k ∧ keys = done ++ k :: rest ∧
      kb_calls (snd (execute_shortcut dev shortcut e)) =
        kb_calls e ++ (Press <$> done) ++ [Press k]) ∨
     (c = Release k ∧ reverse keys = done ++ k :: rest ∧
      kb_calls (snd (execute_shortcut dev shortcut e)) =
        kb_calls e ++ (Press <$> keys) ++ (Release <$> done) ++ [Release k])).
Proof.
  unfold execute_shortcut.
  destruct (_parse_shortcut shortcut (_shortcut_cache e)) as [[err|keys] cache];
    [discriminate|].
  fields. destruct (issue dev Press keys (kb_calls e)) as [[c1|] calls] eqn:Hp.
  - intros [= <-]. apply issue_refused in Hp as (done & k & rest & -> & -> & Hk & _ & ->).
    exists (done ++ k :: rest), done, k, rest. fields. split_and!; try done. by left.
  - apply issue_None in Hp as [-> _].
    destruct (issue dev Release (reverse keys) _) as [[c2|] calls'] eqn:Hr; [|discriminate].
    intros [= <-]. apply issue_refused in Hr as (done & k & rest & -> & Hrev & Hk & _ & ->).
    exists keys, done, k, rest. fields. split_and!; try done. right.
    split_and!; try done. by rewrite <- !app_assoc.
Qed.

Lemma device_failure_leaves_keys_down_witness :
  let dev := refuses_press_of "c" in
  fst (execute_shortcut dev "ctrl+c" initial) = inl (DeviceFailed (Press (Char "c"))) ∧
  ∃ keys done k rest,
    fst (_parse_shortcut "ctrl+c" (_shortcut_cache initial)) = inr keys ∧
    dev (Press (Char "c")) = false ∧
    ((Press (Char "c") = Press k ∧ keys = done ++ k :: rest ∧
      kb_calls (snd (execute_shortcut dev "ctrl+c" initial)) =
        kb_calls initial ++ (Press <$> done) ++ [Press k]) ∨
     (Press (Char "c") = Release k ∧ reverse keys = done ++ k :: rest ∧
      kb_calls (snd (execute_shortcut dev "ctrl+c" initial)) =
        kb_calls initial ++ (Press <$> keys) ++ (Release <$> done) ++ [Release k])).
Proof.
  intros dev.
  assert (fst (execute_shortcut dev "ctrl+c" initial) =
            inl (DeviceFailed (Press (Char "c")))) as Hx by (vm_compute; reflexivity).
  split; [exact Hx|].
  exact (device_failure_leaves_keys_down dev "ctrl+c" initial _ Hx).
Defined.

(** ** The matcher's result *)

(** X4.  A sequence longer than 20 keys, or longer than the history,
    is never matched; what [check_sequence_match] returns beside a
    match is the window without the matched entries, so the two
    together are the last 20 entries of the history, and without a
    match the window is returned whole. *)
Theorem check_sequence_match_result ms history :
  let window := last_n 20 history in
  match check_sequence_match ms history with
  | (Some mapping, remaining) =>
      let matched := last_n (length (sequence mapping)) window in
      mapping ∈ ms ∧
      length (sequence mapping) ≤ 20 ∧
      length (sequence mapping) ≤ length history ∧
      remaining ++ matched = window ∧
      fst <$> matched = sequence mapping
  | (None, remaining) =>
      remaining = window ∧
      Forall (λ x, ¬ matches_tail window (sequence x)) ms
  end.
Proof.
  intros window. unfold check_sequence_match. fold window.
  destruct (first_match window ms) as [[mapping|] remaining] eqn:Hm.
  - apply first_match_Some in Hm as (pre & post & -> & _ & [Hlen Hkeys] & ->).
    pose proof (last_n_length 20 history) as Hw. fold window in Hw.
    split_and!; try done.
    + apply elem_of_app. right. apply elem_of_cons. by left.
    + lia.
    + lia.
    + unfold last_n. apply take_drop.
  - by apply first_match_None in Hm as [? ->].
Qed.

(** ** What the loader builds *)

Lemma load_button_cases bm sm btn :
  load_button (bm, sm) btn =
    (match as_single btn with Some (k, act) => <[k := act]> bm | None => bm end,
     sm ++ match as_sequence btn with Some m => [m] | None => [] end).
Proof.
  unfold load_button, as_single, as_sequence, usable_action.
  destruct (btn_action btn) as [act|]; [|by rewrite app_nil_r].
  case_bool_decide; [by rewrite app_nil_r|].
  destruct (btn_sequence btn) as [[|k ks]|]; try done;
    (destruct (btn_keyType btn) as [key_type|]; [|by rewrite app_nil_r]);
    case_bool_decide; by rewrite app_nil_r.
Qed.

Lemma load_buttons_fold buttons : ∀ bm sm,
  foldl load_button (bm, sm) buttons =
    (foldl (λ m p, <[p.1 := p.2]> m) bm (omap as_single buttons),
     sm ++ omap as_sequence buttons).
Proof.
  induction buttons as [|btn rest IH]; intros bm sm.
  - simpl. by rewrite app_nil_r.
  - cbn [foldl]. rewrite load_button_cases, IH.
    change (btn :: rest) with ([btn] ++ rest). rewrite !omap_app.
    cbn [omap list_omap].
    destruct (as_single btn) as [[k act]|], (as_sequence btn) as [m|]; simpl;
      by rewrite <- ?app_assoc, ?app_nil_r.
Qed.

Lemma foldl_insert_last (l : list (string * string)) : ∀ (bm : gmap string string) k,
  foldl (λ m p, <[p.1 := p.2]> m) bm l !! k =
    match last (filter (λ p, p.1 = k) l) with
    | Some p => Some p.2
    | None => bm !! k
    end.
Proof.
  induction l as [|[k' act] rest IH]; intros bm k; simpl; [done|].
  rewrite IH, filter_cons. simpl. case_decide as Hk.
  - subst k'. rewrite last_cons.
    destruct (last (filter (λ p, p.1 = k) rest)); [done|].
    simpl. apply lookup_insert_eq.
  - destruct (last (filter (λ p, p.1 = k) rest)); [done|].
    by apply lookup_insert_ne.
Qed.

Lemma as_sequence_nonempty btn m :
  as_sequence btn = Some m → sequence m ≠ [] ∧ action m ≠ EmptyString.
Proof.
  unfold as_sequence, usable_action.
  destruct (btn_action btn) as [act|]; [|done].
  case_bool_decide; [done|].
  destruct (btn_sequence btn) as [[|k ks]|]; try done. by intros [= <-].
Qed.

(** X5.  After a successful load the sequence list holds exactly the
    records that have an action and a non-empty sequence, longest
    first, so no loaded sequence is empty and none lacks an action; the
    single-key map gives, for each key type, the action of the last
    record that has an action, a key type and no sequence.  A record
    with both a sequence and a key type counts as a sequence only, and
    nothing of the tables loaded before remains. *)
Theorem load_mappings_tables buttons e key_type :
  let e' := load_mappings (FetchReturned buttons) e in
  sequence_mappings e' = sort_by_length_desc (omap as_sequence buttons) ∧
  sequence_mappings e' ≡ₚ omap as_sequence buttons ∧
  StronglySorted longer_first (sequence_mappings e') ∧
  Forall (λ m, sequence m ≠ [] ∧ action m ≠ EmptyString) (sequence_mappings e') ∧
  button_mappings e' !! key_type =
    snd <$> last (filter (λ p, p.1 = key_type) (omap as_single buttons)).
Proof.
  intros e'.
  assert (sequence_mappings e' = sort_by_length_desc (omap as_sequence buttons) ∧
          button_mappings e' =
            foldl (λ m p, <[p.1 := p.2]> m) ∅ (omap as_single buttons)) as [Hs Hb].
  { unfold e', load_mappings. by rewrite load_buttons_fold. }
  split_and!; try done.
  - rewrite Hs. apply sort_by_length_desc_perm.
  - apply load_mappings_sorted.
  - rewrite Hs, sort_by_length_desc_perm. apply Forall_forall. intros m Hm.
    apply list_elem_of_omap in Hm as (btn & _ & Hbtn). by apply as_sequence_nonempty in Hbtn.
  - rewrite Hb, foldl_insert_last.
    destruct (last (filter (λ p, p.1 = key_type) (omap as_single buttons))); [done|].
    apply lookup_empty.
Qed.

Lemma insert_by_length_filter n m l :
  filter (λ x, length (sequence x) = n) (insert_by_length m l) =
  filter (λ x, length (sequence x) = n) (m :: l).
Proof.
  induction l as [|x r IH]; simpl; [done|].
  destruct (length (sequence x) <=? length (sequence m))%nat eqn:Hle; [done|].
  apply Nat.leb_gt in Hle. rewrite filter_cons, IH, !filter_cons.
  repeat case_decide; try done; lia.
Qed.

(** X6.  The loader's sort is stable: the sequence mappings of any one
    length stand in the sequence list in the order of their records, so
    of two records with the same sequence the earlier one is the one
    the matcher meets first. *)
Theorem load_mappings_keeps_order_of_equal_lengths buttons e n :
  filter (λ m, length (sequence m) = n)
    (sequence_mappings (load_mappings (FetchReturned buttons) e)) =
  filter (λ m, length (sequence m) = n) (omap as_sequence buttons).
Proof.
  destruct (load_mappings_tables buttons e EmptyString) as (-> & _).
  induction (omap as_sequence buttons) as [|m l IH]; simpl; [done|].
  by rewrite insert_by_length_filter, !filter_cons, IH.
Qed.

(** ** What a button release can trigger *)

Lemma last_last_n {A} n (l : list A) : 0 < n → last (last_n n l) = last l.
Proof.
  intros Hn. unfold last_n. destruct (decide (l = [])) as [->|Hne]; [done|].
  rewrite !last_lookup, length_drop, lookup_drop. f_equal.
  assert (length l ≠ 0) by (by destruct l). lia.
Qed.

Lemma record_event_last key_type now h :
  last (record_event key_type now h) = Some (key_type, now).
Proof. unfold record_event. rewrite prune_snoc. apply last_snoc. Qed.

(** X7.  With no empty sequence in the list, which is how the loader
    leaves it, a button release can only match a sequence that ends
    with the button released, and the match reads that release as its
    last entry. *)
Theorem match_ends_with_released_button ms key_type now h mapping remaining :
  Forall (λ m, sequence m ≠ []) ms →
  check_sequence_match ms (record_event key_type now h) = (Some mapping, remaining) →
  last (sequence mapping) = Some key_type ∧
  last (last_n (length (sequence mapping)) (last_n 20 (record_event key_type now h))) =
    Some (key_type, now).
Proof.
  intros Hne Hm. pose proof (check_sequence_match_result ms (record_event key_type now h)) as H.
  cbv zeta in H. rewrite Hm in H. destruct H as (Hin & _ & _ & _ & Hkeys).
  rewrite Forall_forall in Hne. specialize (Hne _ Hin).
  assert (0 < length (sequence mapping)) as Hpos
    by (destruct (sequence mapping); [done|simpl; lia]).
  assert (last (last_n (length (sequence mapping))
                  (last_n 20 (record_event key_type now h))) = Some (key_type, now)) as Hl.
  { rewrite !last_last_n by lia. apply record_event_last. }
  split; [|done]. rewrite <- Hkeys, fmap_last, Hl. done.
Qed.

Lemma match_ends_with_released_button_witness :
  let ms := sequence_mappings
              (load_mappings (FetchReturned [sequence_button ["button_2"; "button_3"] "d"])
                 initial) in
  Forall (λ m, sequence m ≠ []) ms ∧
  check_sequence_match ms (record_event "button_3" (1 # 10) [("button_2", 0%Q)]) =
    (Some {| sequence := ["button_2"; "button_3"]; action := "d"; name := "" |}, []) ∧
  last ["button_2"; "button_3"] = Some "button_3".
Proof.
  intros ms.
  assert (Forall (λ m, sequence m ≠ []) ms) as Hne by (repeat constructor; done).
  assert (check_sequence_match ms (record_event "button_3" (1 # 10) [("button_2", 0%Q)]) =
            (Some {| sequence := ["button_2"; "button_3"]; action := "d"; name := "" |}, []))
    as Hm by (vm_compute; reflexivity).
  split; [exact Hne|]. split; [exact Hm|].
  exact (proj1 (match_ends_with_released_button ms "button_3" (1 # 10) _ _ _ Hne Hm)).
Defined.

(** ** Runs of the engine *)

Lemma execute_pending_single_key_idle dev e :
  pending_single_key e = None → execute_pending_single_key dev e = e.
Proof. intros H. unfold execute_pending_single_key. by rewrite H. Qed.

Lemma step_keeps_tables dev ev e :
  keeps_tables ev →
  button_mappings (step dev e ev) = button_mappings e ∧
  sequence_mappings (step dev e ev) = sequence_mappings e.
Proof.
  destruct ev as [button_number now|id now|fetched| |fetched]; try done; intros _; simpl.
  - by destruct (handle_mouse_button_frame dev button_number now e) as (? & ? & _).
  - unfold timer_elapse.
    destruct (timers e !! id) as [[deadline| |]|]; try done.
    destruct (Qle_bool deadline now); [|done].
    unfold execute_pending_single_key. fields.
    destruct (pending_single_key e) as [[[key_type act] timestamp]|]; [|done].
    set (e1 := set_pending_timer None _).
    pose proof (execute_shortcut_frame dev act e1) as Hf. cbv zeta in Hf.
    destruct Hf as (_ & _ & Hb & Hs & _).
    by destruct (execute_shortcut dev act e1) as [[err|b] e2]; fields.
  - unfold stop_listener. destruct (is_listening e); [|done]. cbn [negb]. fields.
    by destruct (cancel_pending_single_key_frame e) as (_ & _ & ? & ? & _).
Qed.

(** X8.  The tables are written by [load_mappings] alone: button
    releases, timer wake-ups and [stop_listener] leave the single-key
    map and the sequence list as they are, along any run. *)
Theorem run_keeps_tables dev evs : ∀ e,
  Forall keeps_tables evs →
  button_mappings (run dev evs e) = button_mappings e ∧
  sequence_mappings (run dev evs e) = sequence_mappings e.
Proof.
  induction evs as [|ev rest IH]; intros e HF; [done|].
  apply Forall_cons in HF as [Hev HF].
  change (run dev (ev :: rest) e) with (run dev rest (step dev e ev)).
  destruct (step_keeps_tables dev ev e Hev) as [Hb Hs].
  destruct (IH (step dev e ev) HF) as [Hb' Hs']. split; congruence.
Qed.

Lemma run_keeps_tables_witness :
  let e := load_mappings (FetchReturned [single_button "button_2" "c";
                                         sequence_button ["button_2"; "button_3"] "d"])
             initial in
  let evs := [Click 2 0; Click 3 (1 # 10); Elapse 0 (3 # 10); Stop] in
  Forall keeps_tables evs ∧
  button_mappings (run accepts_all evs e) = button_mappings e ∧
  sequence_mappings (run accepts_all evs e) = sequence_mappings e.
Proof.
  intros e evs.
  assert (Forall keeps_tables evs) as HF by (repeat constructor).
  split; [exact HF|]. exact (run_keeps_tables accepts_all evs e HF).
Defined.

(** X9.  A single-key mapping never reaches the keyboard.  In an engine
    with no sequence mapping and no pending key on record, which is
    what loading single-key records gives, no run of button releases,
    timer wake-ups and stops issues a keyboard call or executes a
    shortcut: the handler keeps the pending key in a local name, and
    the timer's callback finds none. *)
Theorem single_key_mapping_never_executes dev evs : ∀ e,
  sequence_mappings e = [] →
  pending_single_key e = None →
  Forall keeps_tables evs →
  kb_calls (run dev evs e) = kb_calls e ∧
  executions (run dev evs e) = executions e.
Proof.
  induction evs as [|ev rest IH]; intros e Hs Hp HF; [done|].
  apply Forall_cons in HF as [Hev HF].
  change (run dev (ev :: rest) e) with (run dev rest (step dev e ev)).
  assert (sequence_mappings (step dev e ev) = [] ∧
          pending_single_key (step dev e ev) = None ∧
          kb_calls (step dev e ev) = kb_calls e ∧
          executions (step dev e ev) = executions e) as (Hs' & Hp' & Hk & Hx).
  { split; [by rewrite (proj2 (step_keeps_tables dev ev e Hev))|].
    destruct ev as [button_number now|id now|fetched| |fetched]; try done; simpl.
    - assert (check_sequence_match (sequence_mappings e)
                (record_event (key_type_of button_number) now (key_history e)) =
              (None, last_n 20 (record_event (key_type_of button_number) now
                                  (key_history e)))) as Hm by (by rewrite Hs).
      destruct (button_mappings e !! key_type_of button_number) as [act|] eqn:Hb.
      + by destruct (handle_single_key_effect dev _ _ _ _ _ Hm Hb)
          as (_ & _ & ? & ? & ? & _).
      + destruct (handle_unmapped_effect dev _ _ _ _ Hm Hb)
          as (_ & _ & ? & ? & Hps & _). split_and!; congruence.
    - by destruct (timer_elapse_idle dev id now e Hp) as (? & ? & _ & ? & _).
    - unfold stop_listener. destruct (is_listening e); [|done]. cbn [negb].
      destruct (cancel_pending_single_key_frame e) as (_ & _ & _ & _ & _ & _ & Hk & Hl).
      destruct (cancel_pending_single_key_clears e) as (Hps & _).
      unfold executions. fields. by rewrite Hps, Hk, Hl. }
  destruct (IH (step dev e ev) Hs' Hp' HF) as [Hk' Hx']. split; congruence.
Qed.

Lemma single_key_mapping_never_executes_witness :
  let e := load_mappings (FetchReturned [single_button "button_2" "c"]) initial in
  let evs := [Click 2 0; Elapse 0 (3 # 10); Click 2 1; Elapse 1 2; Stop] in
  sequence_mappings e = [] ∧ pending_single_key e = None ∧ Forall keeps_tables evs ∧
  button_mappings e !! "button_2" = Some "c" ∧
  kb_calls (run accepts_all evs e) = [] ∧
  executions (run accepts_all evs e) = [].
Proof.
  intros e evs.
  assert (sequence_mappings e = []) as Hs by reflexivity.
  assert (pending_single_key e = None) as Hp by reflexivity.
  assert (Forall keeps_tables evs) as HF by (repeat constructor).
  split; [exact Hs|]. split; [exact Hp|]. split; [exact HF|].
  split; [vm_compute; reflexivity|].
  exact (single_key_mapping_never_executes accepts_all evs e Hs Hp HF).
Defined.

Lemma run_history_fresh dev evs : ∀ prev e,
  history_wf prev (key_history e) →
  (∃ now, Forall (fresh now) (key_history e) ∧
          Forall (λ x, (snd x <= now)%Q) (key_history e)) →
  chronological prev evs →
  within_timeout (key_history (run dev evs e)).
Proof.
  induction evs as [|ev rest IH]; intros prev e Hwf (t & Hfresh & Hle) Hch.
  - split; [by destruct Hwf|]. intros a b Ha Hb.
    rewrite Forall_forall in Hfresh, Hle.
    pose proof (Hfresh a Ha). pose proof (Hle b Hb).
    unfold fresh in *. lra.
  - change (run dev (ev :: rest) e) with (run dev rest (step dev e ev)).
    assert (∀ t', history_wf t' [] ∧
                  ∃ now, Forall (fresh now) ([] : list HistoryEntry) ∧
                         Forall (λ x : HistoryEntry, (snd x <= now)%Q) [])
      as Hnil by (intros; split; [split; constructor|exists 0%Q; split; constructor]).
    destruct ev as [button_number now|id now|fetched| |fetched]; simpl in Hch.
    + destruct Hch as [Hnow Hch]. apply (IH now); [| |done]; simpl.
      * destruct (handle_mouse_button_history dev button_number now e) as [->| ->];
          [apply (Hnil now)|]. by apply (record_event_wf prev).
      * destruct (handle_mouse_button_history dev button_number now e) as [->| ->];
          [apply (Hnil now)|]. exists now.
        destruct (record_event_wf prev now (key_type_of button_number) _ Hnow Hwf)
          as [[_ ?] ?]. done.
    + apply (IH prev); [| |done]; simpl; rewrite timer_elapse_history; eauto.
    + assert (key_history (step dev e (Start fetched)) = key_history e) as Heq.
      { simpl. unfold start_listener. destruct (is_listening e); [done|]. fields.
        by destruct fetched; unfold load_mappings;
          [|destruct (foldl load_button (∅, []) buttons)]. }
      apply (IH prev); [| |done]; rewrite Heq; eauto.
    + assert (key_history (step dev e Stop) = key_history e ∨
              key_history (step dev e Stop) = []) as [Heq|Heq].
      { simpl. unfold stop_listener. destruct (is_listening e); [|by left].
        cbn [negb]. by right. }
      * apply (IH prev); [| |done]; rewrite Heq; eauto.
      * apply (IH prev); [| |done]; rewrite Heq; apply (Hnil prev).
    + assert (key_history (step dev e (Reload fetched)) = key_history e) as Heq.
      { simpl. by destruct fetched; unfold load_mappings;
          [|destruct (foldl load_button (∅, []) buttons)]. }
      apply (IH prev); [| |done]; rewrite Heq; eauto.
Qed.

(** X10.  Along every run that starts with an empty history and reads
    a clock that never runs backwards, whatever else happens in
    between, the key history is in time order and its oldest entry is
    at most [SEQUENCE_TIMEOUT] older than its newest. *)
Theorem run_history_within_timeout dev evs prev e :
  key_history e = [] →
  chronological prev evs →
  within_timeout (key_history (run dev evs e)).
Proof.
  intros Hh Hch. apply (run_history_fresh dev evs prev); [| |done]; rewrite Hh.
  - split; constructor.
  - exists 0%Q. split; constructor.
Qed.

Lemma run_history_within_timeout_witness :
  let evs := [Click 0 0; Click 1 (2 # 10); Elapse 0 (3 # 10); Click 0 (6 # 10)] in
  key_history initial = [] ∧ chronological 0 evs ∧
  within_timeout (key_history (run accepts_all evs initial)) ∧
  key_history (run accepts_all evs initial) = [("button_1", 2 # 10); ("button_0", 6 # 10)].
Proof.
  intros evs.
  assert (key_history initial = []) as Hh by reflexivity.
  assert (chronological 0 evs) as Hch.
  { simpl. split_and!; try done; vm_compute; discriminate. }
  split; [exact Hh|]. split; [exact Hch|]. split; [|vm_compute; reflexivity].
  exact (run_history_within_timeout accepts_all evs 0 initial Hh Hch).
Defined.

Lemma step_cache_ok dev ev e :
  cache_ok (_shortcut_cache e) → cache_ok (_shortcut_cache (step dev e ev)).
Proof.
  intros Hc. destruct ev as [button_number now|id now|fetched| |fetched]; simpl.
  - by apply handle_mouse_button_frame.
  - unfold timer_elapse.
    destruct (timers e !! id) as [[deadline| |]|]; try done.
    destruct (Qle_bool deadline now); [|done].
    unfold execute_pending_single_key. fields.
    destruct (pending_single_key e) as [[[key_type act] timestamp]|]; [|done].
    set (e1 := set_pending_timer None _).
    pose proof (execute_shortcut_cache_ok dev act e1 Hc) as Hc'.
    by destruct (execute_shortcut dev act e1) as [[err|b] e2]; fields.
  - unfold start_listener. destruct (is_listening e); [done|]. fields.
    by destruct fetched; unfold load_mappings;
      [|destruct (foldl load_button (∅, []) buttons)].
  - unfold stop_listener. destruct (is_listening e); [|done]. cbn [negb]. fields.
    by destruct (cancel_pending_single_key_frame e) as (_ & _ & _ & _ & _ & -> & _).
  - by destruct fetched; unfold load_mappings;
      [|destruct (foldl load_button (∅, []) buttons)].
Qed.

(** X11.  The cache never changes what a shortcut means: along every
    run from a sound cache, and so from the empty one, the parser
    returns for every string what a parse without the cache returns. *)
Theorem run_cache_transparent dev evs shortcut : ∀ e,
  cache_ok (_shortcut_cache e) →
  fst (_parse_shortcut shortcut (_shortcut_cache (run dev evs e))) = parse_fresh shortcut.
Proof.
  induction evs as [|ev rest IH]; intros e Hc.
  - by apply parse_shortcut_fst.
  - change (run dev (ev :: rest) e) with (run dev rest (step dev e ev)).
    apply IH. by apply step_cache_ok.
Qed.

Lemma run_cache_transparent_witness :
  let e := load_mappings (FetchReturned [sequence_button ["button_0"] "Ctrl+C"]) initial in
  cache_ok (_shortcut_cache e) ∧
  _shortcut_cache (run accepts_all [Click 0 0] e) !! "Ctrl+C" =
    Some [Named Key_ctrl; Char "c"] ∧
  fst (_parse_shortcut "Ctrl+C" (_shortcut_cache (run accepts_all [Click 0 0] e))) =
    parse_fresh "Ctrl+C".
Proof.
  intros e. split; [exact cache_ok_empty|]. split; [vm_compute; reflexivity|].
  exact (run_cache_transparent accepts_all [Click 0 0] "Ctrl+C" e cache_ok_empty).
Defined.

(** ** Restart *)

Lemma load_mappings_tables_only fetched e1 e2 :
  button_mappings (load_mappings fetched e1) = button_mappings (load_mappings fetched e2) ∧
  sequence_mappings (load_mappings fetched e1) = sequence_mappings (load_mappings fetched e2).
Proof.
  by destruct fetched; unfold load_mappings;
    [|destruct (foldl load_button (∅, []) buttons)].
Qed.

Lemma load_mappings_frame fetched e :
  is_listening (load_mappings fetched e) = is_listening e ∧
  listener_threads (load_mappings fetched e) = listener_threads e ∧
  key_history (load_mappings fetched e) = key_history e ∧
  pending_single_key (load_mappings fetched e) = pending_single_key e ∧
  pending_timer (load_mappings fetched e) = pending_timer e ∧
  timers (load_mappings fetched e) = timers e ∧
  _shortcut_cache (load_mappings fetched e) = _shortcut_cache e ∧
  kb_calls (load_mappings fetched e) = kb_calls e.
Proof.
  by destruct fetched; unfold load_mappings;
    [|destruct (foldl load_button (∅, []) buttons)].
Qed.

Lemma start_listener_stopped fetched e :
  is_listening e = false →
  start_listener fetched e =
    ({| success := true; message := Started |},
     set_is_listening true
       (set_listener_threads (S (listener_threads (load_mappings fetched e)))
          (load_mappings fetched e))).
Proof. intros H. unfold start_listener. by rewrite H. Qed.

(** X12.  [reload_and_restart_listener] always answers [success: True]
    and leaves the listener running on the freshly loaded tables, with
    one more listener thread started.  If the listener was running, the
    key history and the pending key are cleared on the way; if it was
    stopped, the key history it had is kept. *)
Theorem reload_and_restart_always_running fetched e :
  let after := reload_and_restart_listener fetched e in
  fst after = {| success := true; message := Started |} ∧
  is_listener_running (snd after) = true ∧
  listener_threads (snd after) = S (listener_threads e) ∧
  button_mappings (snd after) = button_mappings (load_mappings fetched e) ∧
  sequence_mappings (snd after) = sequence_mappings (load_mappings fetched e) ∧
  key_history (snd after) = (if is_listening e then [] else key_history e) ∧
  pending_single_key (snd after) =
    (if is_listening e then None else pending_single_key e).
Proof.
  unfold reload_and_restart_listener, is_listener_running.
  destruct (is_listening e) eqn:Hl.
  - unfold stop_listener. rewrite Hl. cbn [negb snd].
    rewrite start_listener_stopped by done. fields.
    destruct (load_mappings_tables_only fetched
                (set_is_listening false (set_key_history [] (cancel_pending_single_key e)))
                e) as [Hb Hs].
    destruct (load_mappings_frame fetched
                (set_is_listening false (set_key_history [] (cancel_pending_single_key e))))
      as (_ & Hlt & Hh & Hps & _).
    fields.
    destruct (cancel_pending_single_key_frame e) as (_ & Hlt' & _).
    destruct (cancel_pending_single_key_clears e) as (Hps' & _).
    split_and!; try done; congruence.
  - rewrite start_listener_stopped by done. fields.
    destruct (load_mappings_frame fetched e) as (_ & ? & ? & ? & _).
    split_and!; try done; congruence.
Qed.

(** ** The timer's callback *)

Lemma execute_shortcut_accepted dev shortcut e keys :
  fst (_parse_shortcut shortcut (_shortcut_cache e)) = inr keys →
  Forall (λ k, dev (Press k) = true ∧ dev (Release k) = true) keys →
  fst (execute_shortcut dev shortcut e) = inr true ∧
  kb_calls (snd (execute_shortcut dev shortcut e)) =
    kb_calls e ++ (Press <$> keys) ++ (Release <$> reverse keys).
Proof.
  intros Hp Hdev. unfold execute_shortcut.
  destruct (_parse_shortcut shortcut (_shortcut_cache e)) as [r cache].
  simpl in Hp. subst r. fields.
  rewrite (issue_accepted dev Press)
    by (eapply Forall_impl; [exact Hdev|]; by intros k [? _]).
  rewrite (issue_accepted dev Release)
    by (apply Forall_reverse; eapply Forall_impl; [exact Hdev|]; by intros k [_ ?]).
  fields. by rewrite <- app_assoc.
Qed.

(** X13.  When a pending key is on record, [execute_pending_single_key]
    clears the record first and then executes the recorded action, once:
    a second call finds nothing and changes nothing. *)
Theorem pending_key_executes_once dev e key_type act timestamp keys :
  pending_single_key e = Some (key_type, act, timestamp) →
  fst (_parse_shortcut act (_shortcut_cache e)) = inr keys →
  Forall (λ k, dev (Press k) = true ∧ dev (Release k) = true) keys →
  let e1 := execute_pending_single_key dev e in
  kb_calls e1 = kb_calls e ++ (Press <$> keys) ++ (Release <$> reverse keys) ∧
  executions e1 = executions e ++ [act] ∧
  pending_single_key e1 = None ∧
  pending_timer e1 = None ∧
  execute_pending_single_key dev e1 = e1.
Proof.
  intros Hp Hparse Hdev e1.
  set (e0 := set_pending_timer None (set_pending_single_key None e)).
  assert (fst (_parse_shortcut act (_shortcut_cache e0)) = inr keys) as Hparse0 by done.
  destruct (execute_shortcut_accepted dev act e0 keys Hparse0 Hdev)
    as (Hr & Hk).
  pose proof (execute_shortcut_frame dev act e0) as Hf. cbv zeta in Hf.
  destruct Hf as (_ & _ & _ & _ & _ & Hps & Hpt & _).
  pose proof (execute_shortcut_executions dev act e0) as Hx. rewrite Hr in Hx.
  assert (e1 = log (InfoSingleMapping key_type act) (snd (execute_shortcut dev act e0)))
    as He1.
  { unfold e1, execute_pending_single_key. rewrite Hp. fold e0.
    by destruct (execute_shortcut dev act e0) as [[err|b] e2]; [discriminate|]. }
  assert (pending_single_key e1 = None) as Hnone by (rewrite He1; fields; by rewrite Hps).
  split_and!; try done.
  - rewrite He1. fields. by rewrite Hk.
  - rewrite He1, executions_log, app_nil_r, Hx. done.
  - rewrite He1. fields. by rewrite Hpt.
  - by apply execute_pending_single_key_idle.
Qed.

Lemma pending_key_executes_once_witness :
  let e := set_pending_single_key (Some ("button_2", "c", 0%Q)) initial in
  pending_single_key e = Some ("button_2", "c", 0%Q) ∧
  fst (_parse_shortcut "c" (_shortcut_cache e)) = inr [Char "c"] ∧
  Forall (λ k, accepts_all (Press k) = true ∧ accepts_all (Release k) = true) [Char "c"] ∧
  executions (execute_pending_single_key accepts_all e) = executions e ++ ["c"].
Proof.
  intros e.
  assert (pending_single_key e = Some ("button_2", "c", 0%Q)) as Hp by reflexivity.
  assert (fst (_parse_shortcut "c" (_shortcut_cache e)) = inr [Char "c"]) as Hparse
    by (vm_compute; reflexivity).
  assert (Forall (λ k, accepts_all (Press k) = true ∧ accepts_all (Release k) = true)
            [Char "c"]) as Hdev by (repeat constructor).
  split; [exact Hp|]. split; [exact Hparse|]. split; [exact Hdev|].
  exact (proj1 (proj2 (pending_key_executes_once accepts_all e _ _ _ _ Hp Hparse Hdev))).
Defined.

(** ** Key types *)

Lemma to_int_not_nil z : Z.to_int z ≠ Decimal.Pos Decimal.Nil ∧ Z.to_int z ≠ Decimal.Neg Decimal.Nil.
Proof.
  destruct z as [|p|p]; simpl; split; try discriminate.
  - intros [= H]. by apply (DecimalPos.Unsigned.to_uint_nonnil p).
  - intros [= H]. by apply (DecimalPos.Unsigned.to_uint_nonnil p).
Qed.

(** X15.  Different button numbers give different key types, so no two
    buttons ever share an entry of the tables or of the history. *)
Theorem key_type_of_injective m n : key_type_of m = key_type_of n → m = n.
Proof.
  unfold key_type_of, Py.str_of_int. intros H.
  apply (inj (String.app _)) in H. apply (f_equal NilZero.int_of_string) in H.
  destruct (to_int_not_nil m), (to_int_not_nil n).
  rewrite !NilZero.isi in H by done. injection H as H.
  by apply DecimalZ.to_int_inj.
Qed.

Lemma key_type_of_injective_witness :
  key_type_of 3 = key_type_of (1 + 2) ∧ (3 = 1 + 2)%Z.
Proof.
  assert (key_type_of 3 = key_type_of (1 + 2)) as H by reflexivity.
  split; [exact H|]. exact (key_type_of_injective 3 (1 + 2) H).
Defined.

(** ** What the parser looks at *)

Lemma parse_loop_stripped parts : ∀ keys,
  parse_loop parts keys =
  parse_stripped (filter (λ p, p ≠ EmptyString) (Py.strip <$> parts)) keys.
Proof.
  induction parts as [|part rest IH]; intros keys; simpl; [done|].
  rewrite filter_cons. case_bool_decide as He.
  - rewrite decide_False by (intros H; done). apply IH.
  - rewrite decide_True by done. simpl.
    destruct (parse_part (Py.strip part)); [done|]. apply IH.
Qed.

(** X16.  The parser reads a shortcut string only through its
    non-blank parts, lower-cased and stripped: two strings with the
    same such parts, as when they differ in letter case, in white space
    around the parts or in empty parts between [+] signs, parse to the
    same keys or fail with the same error. *)
Theorem parse_depends_on_parts_only s1 s2 cache :
  cache_ok cache →
  parts_of s1 = parts_of s2 →
  fst (_parse_shortcut s1 cache) = fst (_parse_shortcut s2 cache).
Proof.
  intros Hc Hparts. rewrite !parse_shortcut_fst by done.
  unfold parse_fresh. rewrite !parse_loop_stripped.
  unfold parts_of in Hparts. by rewrite Hparts.
Qed.

Lemma parse_depends_on_parts_only_witness :
  cache_ok ∅ ∧
  parts_of " Ctrl + Shift++C " = parts_of "ctrl+shift+c" ∧
  fst (_parse_shortcut " Ctrl + Shift++C " ∅) = fst (_parse_shortcut "ctrl+shift+c" ∅).
Proof.
  assert (parts_of " Ctrl + Shift++C " = parts_of "ctrl+shift+c") as Hparts
    by (vm_compute; reflexivity).
  split; [exact cache_ok_empty|]. split; [exact Hparts|].
  exact (parse_depends_on_parts_only _ _ ∅ cache_ok_empty Hparts).
Defined.

Lemma lower_char_no_upper c : Py.is_upper (Py.lower_char c) = false.
Proof. destruct c as [[] [] [] [] [] [] [] []]; reflexivity. Qed.

Lemma lower_no_upper s : no_upper (Py.lower s).
Proof.
  induction s as [|c r IH]; simpl; [done|]. split; [apply lower_char_no_upper|done].
Qed.

Lemma split_no_upper sep s : no_upper s → Forall no_upper (Py.split sep s).
Proof.
  induction s as [|c r IH]; simpl.
  - by repeat constructor.
  - intros [Hc Hr]. specialize (IH Hr). case_bool_decide.
    + by constructor.
    + destruct (Py.split sep r) as [|h t]; [by repeat constructor|].
      apply Forall_cons in IH as [Hh Ht]. by repeat constructor.
Qed.

Lemma lstrip_no_upper s : no_upper s → no_upper (Py.lstrip s).
Proof.
  induction s as [|c r IH]; simpl; [done|]. intros [Hc Hr].
  destruct (Py.isspace c); [by apply IH|done].
Qed.

Lemma rev_app_no_upper s1 : ∀ s2,
  no_upper s1 → no_upper s2 → no_upper (String.rev_app s1 s2).
Proof.
  induction s1 as [|c r IH]; intros s2; simpl; [done|].
  intros [Hc Hr] H2. by apply IH.
Qed.

Lemma strip_no_upper s : no_upper s → no_upper (Py.strip s).
Proof.
  intros H. unfold Py.strip, Py.rstrip, String.rev.
  apply rev_app_no_upper; [|done]. apply lstrip_no_upper.
  apply rev_app_no_upper; [|done]. by apply lstrip_no_upper.
Qed.

Lemma parts_of_no_upper shortcut : Forall no_upper (parts_of shortcut).
Proof.
  unfold parts_of. apply Forall_forall. intros p Hp.
  apply list_elem_of_filter in Hp as [_ Hp].
  apply list_elem_of_fmap in Hp as (q & -> & Hq).
  apply strip_no_upper.
  pose proof (split_no_upper "+" _ (lower_no_upper shortcut)) as HF.
  rewrite Forall_forall in HF. by apply HF.
Qed.

(** X17.  Character keys are always issued in lower case: no token of a
    parsed shortcut is an upper-case letter, so [ctrl+C] and [ctrl+c]
    press the same keys and a capital letter can only be reached
    through [shift]. *)
Theorem parsed_characters_are_lower_case shortcut keys :
  parse_fresh shortcut = inr keys → Forall token_no_upper keys.
Proof.
  intros Hp. apply parse_fresh_inr in Hp as [_ HF].
  pose proof (parts_of_no_upper shortcut) as Hparts.
  induction HF as [|p k ps ks Hk _ IH]; [constructor|].
  apply Forall_cons in Hparts as [Hp Hps]. constructor; [|by apply IH].
  apply parse_part_inr in Hk as [Hd _].
  destruct Hd as [| | |c]; try done. simpl in Hp. by destruct Hp.
Qed.

Lemma parsed_characters_are_lower_case_witness :
  parse_fresh "Shift+A" = inr [Named Key_shift; Char "a"] ∧
  Forall token_no_upper [Named Key_shift; Char "a"].
Proof.
  assert (parse_fresh "Shift+A" = inr [Named Key_shift; Char "a"]) as Hp
    by (vm_compute; reflexivity).
  split; [exact Hp|]. exact (parsed_characters_are_lower_case "Shift+A" _ Hp).
Defined.

(** ** The handler and the running flag *)

(** X18.  [handle_mouse_button] never looks at [is_listening]: a button
    release that reaches it is handled in the same way, with the same
    result, keyboard calls and timers, whether the listener counts as
    running or as stopped. *)
Theorem handle_mouse_button_ignores_running_flag dev button_number now e b :
  handle_mouse_button dev button_number now (set_is_listening b e) =
    (fst (handle_mouse_button dev button_number now e),
     set_is_listening b (snd (handle_mouse_button dev button_number now e))).
Proof.
  unfold handle_mouse_button. fields.
  destruct (check_sequence_match (sequence_mappings e)
              (record_event (key_type_of button_number) now (key_history e)))
    as [[mapping|] remaining].
  - unfold cancel_pending_single_key, execute_shortcut. fields.
    destruct (pending_timer e); fields;
      (destruct (_parse_shortcut (action mapping) (_shortcut_cache e))
         as [[err|keys] cache]; [done|]);
      fields;
      (destruct (issue dev Press keys (kb_calls e)) as [[c|] calls]; [done|]);
      by destruct (issue dev Release (reverse keys) calls) as [[c|] calls'].
  - destruct (button_mappings e !! key_type_of button_number) as [act|]; [|done].
    unfold cancel_pending_single_key, start_timer. fields.
    by destruct (pending_timer e).
Qed.
